(** * Travel-agency chatbot: the rule-based classifier of [main.py]

    A shallow embedding of [guess_intent] and of the extractors and
    compiled patterns it uses, followed by the properties of the
    classification result.

    Python strings are sequences of Unicode code points.  The program
    asks four things of a code point: whether [str.strip] and [\s]
    treat it as white space, whether [\b] treats it as a word character,
    whether [\d] accepts it, and how its case is folded ([re.I],
    [str.lower], [str.title]).  On the ASCII range these answers are
    written out below; beyond it they come from the Unicode database,
    which is taken as a parameter ([Unicode]), so that every statement
    holds whatever that database says. *)

From Stdlib Require Import QArith.
From stdpp Require Import gmap list strings.

Local Open Scope N_scope.

(** ** Code points and strings *)

Abbreviation str := (list N).

(** A source literal, as the sequence of its code points (ASCII only). *)
Definition py (s : string) : str :=
  map Ascii.N_of_ascii (String.list_ascii_of_string s).
Arguments py : simpl never.

(** The part of the Unicode database the program consults for code
    points above 127. *)
Record Unicode := {
  (** [str.isspace], also the class [\s] *)
  u_isspace : N → bool;
  (** alphanumeric: the class [\w] that decides [\b] *)
  u_isalnum : N → bool;
  (** decimal digit: the class [\d] *)
  u_isdecimal : N → bool;
  (** [u_ci x c]: under [re.I] the code point [c] matches the pattern
      letter [x] *)
  u_ci : N → N → bool;
  (** under [re.I] the code point matches the class [[a-z]] *)
  u_ci_az : N → bool;
  (** [str.lower] of one code point, given the code points before it
      (nearest first) and those after it: the mapping of capital sigma
      looks at both *)
  u_lower : str → N → str → str;
  (** [str.title] of one code point, given whether the previous one was
      cased, and the same context *)
  u_title : bool → str → N → str → str;
  (** the code point is cased *)
  u_cased : N → bool
}.

(** The database that knows nothing beyond ASCII. *)
Definition ascii_only : Unicode :=
  {| u_isspace := λ _, false;
     u_isalnum := λ _, false;
     u_isdecimal := λ _, false;
     u_ci := λ _ _, false;
     u_ci_az := λ _, false;
     u_lower := λ _ c _, [c];
     u_title := λ _ _ c _, [c];
     u_cased := λ _, false |}.

Definition between (lo hi c : N) : bool := (lo <=? c) && (c <=? hi).

Definition is_ascii (c : N) : bool := c <? 128.
Definition ascii_isupper : N → bool := between 65 90.
Definition ascii_islower : N → bool := between 97 122.
Definition ascii_isdigit : N → bool := between 48 57.
Definition ascii_isalpha (c : N) : bool := ascii_isupper c || ascii_islower c.
Definition ascii_tolower (c : N) : N := if ascii_isupper c then c + 32 else c.
Definition ascii_toupper (c : N) : N := if ascii_islower c then c - 32 else c.

(** ** Exceptions

    The operations of the program that can raise: indexing a list past
    its end, reading a dictionary at a missing key, calling a string
    method on [None]. *)
Inductive exn := IndexError | KeyError | AttributeError.

Inductive result (A : Type) :=
  | Ok (a : A)
  | Raise (e : exn).
Arguments Ok {A} a.
Arguments Raise {A} e.

#[global] Instance result_ret : MRet result := λ A a, Ok a.
#[global] Instance result_bind : MBind result := λ A B f m,
  match m with
  | Ok a => f a
  | Raise e => Raise e
  end.

#[global] Instance result_fmap : FMap result := λ A B f m,
  match m with
  | Ok a => Ok (f a)
  | Raise e => Raise e
  end.

(** [l[i]] *)
Definition getitem {A} (l : list A) (i : nat) : result A :=
  match l !! i with
  | Some a => Ok a
  | None => Raise IndexError
  end.

(** [d[k]] *)
Definition dict_get (d : gmap str (option str)) (k : str) : result (option str) :=
  match d !! k with
  | Some v => Ok v
  | None => Raise KeyError
  end.

(** Truth value of an optional string: [None] and the empty string are
    false. *)
Definition truthy (v : option str) : bool :=
  match v with
  | Some (_ :: _) => true
  | _ => false
  end.

(** Truth value of a list. *)
Definition nonempty {A} (l : list A) : bool :=
  match l with
  | [] => false
  | _ :: _ => true
  end.

(** [f"{v}"] *)
Definition fmt (v : option str) : str :=
  match v with
  | Some s => s
  | None => py "None"
  end.

(** [sep.join(parts)] *)
Fixpoint join (sep : str) (parts : list str) : str :=
  match parts with
  | [] => []
  | [p] => p
  | p :: ps => p ++ sep ++ join sep ps
  end.

(** ** Models *)

(** [ChatResponse].  The confidence is the rational number its decimal
    literal denotes. *)
Record ChatResponse := {
  intent : str;
  confidence : Q;
  slots : gmap str (option str);
  reply : str;
  follow_up : option str
}.

Record IntentDef := {
  name : str;
  description : str;
  sample_utterances : list str;
  required_slots : list str
}.

(** ** Intent catalog *)
Definition INTENTS : list IntentDef :=
  [ {| name := py "greeting";
       description := py "User says hello or starts a conversation";
       sample_utterances := py <$> ["hi"; "hello"; "hey there"; "good morning"]%string;
       required_slots := [] |};
    {| name := py "search_flights";
       description := py "Find flights between two cities on a date";
       sample_utterances :=
         py <$> ["Find flights from NYC to Paris on June 5";
                 "Any flights to Tokyo next Friday?";
                 "I need a flight from London to Rome"]%string;
       required_slots := py <$> ["from"; "to"; "date"]%string |};
    {| name := py "book_hotel";
       description := py "Book a hotel in a city for given dates";
       sample_utterances :=
         py <$> ["Book a hotel in Paris from July 1 to July 5";
                 "Need a hotel in Tokyo next weekend";
                 "Find me a 4-star hotel in Rome for two nights"]%string;
       required_slots := py <$> ["location"; "check_in"; "check_out"]%string |};
    {| name := py "cancel_booking";
       description := py "Cancel an existing booking by ID";
       sample_utterances :=
         py <$> ["Cancel booking ABC123"; "I want to cancel reservation 9XZ45"]%string;
       required_slots := py <$> ["booking_id"]%string |};
    {| name := py "weather";
       description := py "Get destination weather for a date";
       sample_utterances :=
         py <$> ["What's the weather in Paris tomorrow?";
                 "Forecast for Tokyo on June 10"]%string;
       required_slots := py <$> ["location"; "date"]%string |};
    {| name := py "thanks";
       description := py "User expresses gratitude";
       sample_utterances := py <$> ["thanks"; "thank you"; "cheers"]%string;
       required_slots := [] |};
    {| name := py "help";
       description := py "User asks what the assistant can do";
       sample_utterances := py <$> ["help"; "what can you do?"; "options"]%string;
       required_slots := [] |} ].

(** The regular expressions the program's patterns are built from. *)
Inductive regex :=
  | Eps
  | Fail
  | Chr (p : N → bool)                              (* one code point of a class *)
  | Bnd                                             (* [\b] *)
  | Cat (r1 r2 : regex)
  | Alt (r1 r2 : regex)                             (* [r1|r2] *)
  | Opt (r : regex)                                 (* [(?:r)?] *)
  | Rep (p : N → bool) (lo : nat) (hi : option nat) (* [p{lo,hi}], [p*], [p+] *).

Section Classifier.
Variable U : Unicode.

(** [Py_UNICODE_ISSPACE]: tab to carriage return, the four separators
    FS GS RS US, and the space. *)
Definition isspace (c : N) : bool :=
  if is_ascii c then between 9 13 c || between 28 32 c else u_isspace U c.

(** [\w]: alphanumeric or underscore. *)
Definition is_word (c : N) : bool :=
  if is_ascii c then ascii_isalpha c || ascii_isdigit c || (c =? 95)
  else u_isalnum U c.

(** [\d] *)
Definition is_digit (c : N) : bool :=
  if is_ascii c then ascii_isdigit c else u_isdecimal U c.

(** [\s] *)
Definition is_space : N → bool := isspace.

(** A literal character of a pattern compiled without flags. *)
Definition exactly (x c : N) : bool := c =? x.

(** A literal character of a pattern compiled with [re.I]: a cased
    pattern character matches every code point that folds to it, an
    uncased one only itself. *)
Definition ignoring_case (x c : N) : bool :=
  if ascii_isalpha x then
    if is_ascii c then ascii_tolower c =? ascii_tolower x else u_ci U (ascii_tolower x) c
  else c =? x.

(** [[a-z]] under [re.I] *)
Definition ci_az (c : N) : bool :=
  if is_ascii c then ascii_isalpha c else u_ci_az U c.

(** [[A-Z0-9]], no flags *)
Definition upper_or_digit (c : N) : bool := ascii_isupper c || ascii_isdigit c.

(** *** [str.lower], [str.strip], [str.title], [in] *)

Fixpoint lower_from (before s : str) : str :=
  match s with
  | [] => []
  | c :: s' =>
      (if is_ascii c then [ascii_tolower c] else u_lower U before c s')
        ++ lower_from (c :: before) s'
  end.

Definition lower (s : str) : str := lower_from [] s.

Fixpoint lstrip (s : str) : str :=
  match s with
  | c :: s' => if isspace c then lstrip s' else s
  | [] => []
  end.

Definition rstrip (s : str) : str := reverse (lstrip (reverse s)).

Definition strip (s : str) : str := rstrip (lstrip s).

Fixpoint title_from (prev_cased : bool) (before s : str) : str :=
  match s with
  | [] => []
  | c :: s' =>
      (if is_ascii c then
         [if prev_cased then ascii_tolower c else ascii_toupper c]
       else u_title U prev_cased before c s')
        ++ title_from (if is_ascii c then ascii_isalpha c else u_cased U c)
                      (c :: before) s'
  end.

Definition title (s : str) : str := title_from false [] s.

Fixpoint starts_with (w s : str) : bool :=
  match w, s with
  | [], _ => true
  | x :: w', c :: s' => (c =? x) && starts_with w' s'
  | _ :: _, [] => false
  end.

(** [w in s] *)
Fixpoint contains (w s : str) : bool :=
  starts_with w s ||
  match s with
  | [] => false
  | _ :: s' => contains w s'
  end.

(** *** The [re] module

    A pattern is matched by backtracking: alternatives are tried from
    left to right, quantifiers are greedy, and the first way through
    wins.  [ends r prev s] lists, in that order, every place where a
    match of [r] that starts in front of [s] can end; [prev] is the code
    point just before the current position, which [\b] needs.  Only
    [group(0)] is kept: the one capturing group the program reads,
    group 1 of [BOOKING_ID_PATTERN], spans the whole match. *)

Definition boundary (prev : option N) (s : str) : bool :=
  xorb (from_option is_word false prev) (from_option is_word false (head s)).

Fixpoint rep_ends (p : N → bool) (lo : nat) (hi : option nat)
    (prev : option N) (s : str) : list (option N * str) :=
  let here := match lo with O => [(prev, s)] | S _ => [] end in
  match s with
  | c :: s' =>
      if p c && negb (bool_decide (hi = Some O))
      then rep_ends p (pred lo) (pred <$> hi) (Some c) s' ++ here
      else here
  | [] => here
  end.

Fixpoint ends (r : regex) (prev : option N) (s : str) : list (option N * str) :=
  match r with
  | Eps => [(prev, s)]
  | Fail => []
  | Chr p =>
      match s with
      | c :: s' => if p c then [(Some c, s')] else []
      | [] => []
      end
  | Bnd => if boundary prev s then [(prev, s)] else []
  | Cat r1 r2 => e ← ends r1 prev s; ends r2 e.1 e.2
  | Alt r1 r2 => ends r1 prev s ++ ends r2 prev s
  | Opt r1 => ends r1 prev s ++ [(prev, s)]
  | Rep p lo hi => rep_ends p lo hi prev s
  end.

(** The text between the position in front of [s] and an end [e]. *)
Definition matched (s : str) (e : option N * str) : str :=
  take (length s - length e.2) s.

Definition advances (s : str) (e : option N * str) : bool :=
  (length e.2 <? length s)%nat.

(** [pattern.search(s)]: the leftmost position with a match, and the
    preferred match there; [None] when there is none. *)
Fixpoint search_from (r : regex) (prev : option N) (s : str) : option str :=
  match ends r prev s with
  | e :: _ => Some (matched s e)
  | [] =>
      match s with
      | c :: s' => search_from r (Some c) s'
      | [] => None
      end
  end.

Definition search (r : regex) (s : str) : option str := search_from r None s.

(** [pattern.finditer(s)], as the list of the [group(0)] of its matches:
    the successive non-overlapping matches from left to right.  [skip]
    counts the code points of the last match still to be stepped over.
    After an empty match the same position is tried once more for a
    match that advances (the rule of Python 3.7 and later). *)
Fixpoint finditer_from (r : regex) (skip : nat) (prev : option N) (s : str)
    : list str :=
  let next (k : nat) :=
    match s with
    | c :: s' => finditer_from r k (Some c) s'
    | [] => []
    end in
  match skip with
  | S k => next k
  | O =>
      match ends r prev s with
      | [] => next O
      | e :: es =>
          if advances s e then matched s e :: next (pred (length (matched s e)))
          else
            matched s e ::
            match filter (λ e', advances s e' = true) es with
            | e' :: _ => matched s e' :: next (pred (length (matched s e')))
            | [] => next O
            end
      end
  end.

Definition finditer (r : regex) (s : str) : list str := finditer_from r O None s.

(** *** The patterns of the program *)

Definition alts (rs : list regex) : regex := foldr Alt Fail rs.
Definition cats (rs : list regex) : regex := foldr Cat Eps rs.

(** A literal of a pattern compiled without flags, and one of a pattern
    compiled with [re.I]. *)
Definition lit (w : string) : regex := cats (Chr ∘ exactly <$> py w).
Definition lit_i (w : string) : regex := cats (Chr ∘ ignoring_case <$> py w).

(** [\b(w1|w2|...)\b] *)
Definition whole_word (ws : list regex) : regex := cats [Bnd; alts ws; Bnd].

(** [\b(paris|tokyo|rome|london|new york|nyc|madrid|berlin|sydney|dubai)\b], [re.I] *)
Definition CITY_PATTERN : regex :=
  whole_word (lit_i <$> ["paris"; "tokyo"; "rome"; "london"; "new york"; "nyc";
                         "madrid"; "berlin"; "sydney"; "dubai"]%string).

(** [\b([A-Z0-9]{5,8})\b] *)
Definition BOOKING_ID_PATTERN : regex :=
  cats [Bnd; Rep upper_or_digit 5 (Some 8%nat); Bnd].

Definition DATE_WORDS : list str :=
  py <$> ["today"; "tomorrow"; "tonight"; "next monday"; "next tuesday";
          "next wednesday"; "next thursday"; "next friday"; "next saturday";
          "next sunday"]%string.

Definition digits (lo hi : nat) : regex := Rep is_digit lo (Some hi).

(** [\b(?:\d{4}-\d{1,2}-\d{1,2}|\d{1,2}/\d{1,2}(?:/\d{2,4})?|(?:jan|feb|mar|apr|may|jun|jul|aug|sep|oct|nov|dec)[a-z]*\s+\d{1,2})\b], [re.I] *)
Definition DATE_PATTERN : regex :=
  whole_word
    [ cats [digits 4 4; lit_i "-"; digits 1 2; lit_i "-"; digits 1 2];
      cats [digits 1 2; lit_i "/"; digits 1 2; Opt (cats [lit_i "/"; digits 2 4])];
      cats [alts (lit_i <$> ["jan"; "feb"; "mar"; "apr"; "may"; "jun"; "jul";
                            "aug"; "sep"; "oct"; "nov"; "dec"]%string);
           Rep ci_az 0 None; Rep is_space 1 None; digits 1 2] ].

(** The patterns written in place in [guess_intent]; all are searched
    in the lowercased text and compiled without flags. *)

(** [\b(hi|hello|hey|good\s+(morning|afternoon|evening))\b] *)
Definition GREETING : regex :=
  whole_word
    [ lit "hi"; lit "hello"; lit "hey";
      cats [lit "good"; Rep is_space 1 None;
           alts (lit <$> ["morning"; "afternoon"; "evening"]%string)] ].

(** [\b(thanks|thank you|cheers|appreciate it)\b] *)
Definition THANKS : regex :=
  whole_word (lit <$> ["thanks"; "thank you"; "cheers"; "appreciate it"]%string).

(** [\b(help|what can you do|options)\b] *)
Definition HELP : regex :=
  whole_word (lit <$> ["help"; "what can you do"; "options"]%string).

(** [\b(cancel|void)\b] and [\b(booking|reservation)\b] *)
Definition CANCEL : regex := whole_word (lit <$> ["cancel"; "void"]%string).
Definition BOOKING : regex := whole_word (lit <$> ["booking"; "reservation"]%string).

(** [\b(hotel|stay|accommodation)\b] and [\b(book|reserve|find)\b] *)
Definition LODGING : regex :=
  whole_word (lit <$> ["hotel"; "stay"; "accommodation"]%string).
Definition RESERVE : regex := whole_word (lit <$> ["book"; "reserve"; "find"]%string).

(** [\b(flight|flights|plane)\b] and [\b(from|to)\b] *)
Definition FLIGHT : regex := whole_word (lit <$> ["flight"; "flights"; "plane"]%string).
Definition FROM_TO : regex := whole_word (lit <$> ["from"; "to"]%string).

(** [\b(weather|forecast)\b] *)
Definition WEATHER : regex := whole_word (lit <$> ["weather"; "forecast"]%string).

(** Truth value of [re.search(r, s)]: a match object is true, [None]
    is false. *)
Definition found (r : regex) (s : str) : bool :=
  match search r s with
  | Some _ => true
  | None => false
  end.

(** *** The extractors *)

Definition extract_date (text : str) : option str :=
  match search DATE_PATTERN text with
  | Some m => Some m
  | None => List.find (λ w, contains w (lower text)) DATE_WORDS
  end.

Definition extract_cities (text : str) : list str :=
  lower <$> finditer CITY_PATTERN text.

(** [v.title()] for a slot value, which may be [None]. *)
Definition title_of (v : option str) : result str :=
  match v with
  | Some s => Ok (title s)
  | None => Raise AttributeError
  end.

(** *** [guess_intent], rule by rule

    The four fixed answers, then the four branches that extract slots,
    each named after the intent it returns, then the cascade itself. *)

Definition greeting_response : ChatResponse :=
  {| intent := py "greeting"; confidence := 0.95; slots := ∅;
     reply := py "Hi! Where would you like to travel? I can search flights and hotels, or check the weather.";
     follow_up := None |}.

Definition thanks_response : ChatResponse :=
  {| intent := py "thanks"; confidence := 0.95; slots := ∅;
     reply := py "You're welcome! Anything else I can help with?";
     follow_up := None |}.

Definition help_response : ChatResponse :=
  {| intent := py "help"; confidence := 0.9; slots := ∅;
     reply := py "I can: 1) find flights, 2) book hotels, 3) check weather, 4) cancel bookings if you have an ID.";
     follow_up := None |}.

Definition fallback_response : ChatResponse :=
  {| intent := py "fallback"; confidence := 0.4; slots := ∅;
     reply := py "I'm not sure I understood. Try asking me to find flights, book a hotel, check weather, or cancel a booking.";
     follow_up := None |}.

Definition cancel_booking (text : str) : result ChatResponse :=
  let bid := search BOOKING_ID_PATTERN text in
  let reply :=
    if negb (truthy bid) then py "I can help cancel that. What's the booking ID?"
    else py "Okay, I can cancel booking " ++ fmt bid ++ py ". Do you want me to proceed?" in
  Ok {| intent := py "cancel_booking"; confidence := 0.85;
        slots := if truthy bid then {[ py "booking_id" := bid ]} else ∅;
        reply := reply; follow_up := None |}.

Definition book_hotel (text : str) : result ChatResponse :=
  let cities := extract_cities text in
  let date1 := extract_date text in
  let date2 : option str := None in
  let dates := finditer DATE_PATTERN text in
  '(date1, date2) ←
    (if (2 <=? length dates)%nat then
       d0 ← getitem dates 0; d1 ← getitem dates 1; Ok (Some d0, Some d1)
     else Ok (date1, date2));
  reply ←
    (if nonempty cities && truthy date1 && truthy date2 then
       c ← getitem cities 0;
       Ok (py "Got it. Searching hotels in " ++ title c ++ py " from " ++ fmt date1
             ++ py " to " ++ fmt date2 ++ py "...")
     else if nonempty cities && truthy date1 then
       c ← getitem cities 0;
       Ok (py "Great. What's your check-out date for " ++ title c ++ py " after "
             ++ fmt date1 ++ py "?")
     else if nonempty cities then
       c ← getitem cities 0;
       Ok (py "Great. What dates would you like in " ++ title c ++ py "?")
     else Ok (py "Sure, what city and dates are you looking at?"));
  location ← (if nonempty cities then Some <$> getitem cities 0 else Ok None);
  Ok {| intent := py "book_hotel"; confidence := 0.8;
        slots := {[ py "location" := location; py "check_in" := date1;
                    py "check_out" := date2 ]};
        reply := reply;
        follow_up := Some (py "Please provide missing details if any.") |}.

(** The first value of [reply], "Looking for flights", is overwritten on
    both branches of the last test and does not appear. *)
Definition search_flights (text low : str) : result ChatResponse :=
  let cities := extract_cities text in
  let date := extract_date text in
  let slots : gmap str (option str) :=
    {[ py "from" := None; py "to" := None; py "date" := date ]} in
  slots ←
    (if (2 <=? length cities)%nat then
       c0 ← getitem cities 0; c1 ← getitem cities 1;
       Ok (<[ py "to" := Some c1 ]> (<[ py "from" := Some c0 ]> slots))
     else if (length cities =? 1)%nat then
       if contains (py "from") low then
         c0 ← getitem cities 0; Ok (<[ py "from" := Some c0 ]> slots)
       else if contains (py "to") low then
         c0 ← getitem cities 0; Ok (<[ py "to" := Some c0 ]> slots)
       else Ok slots
     else Ok slots);
  let parts : list str := [] in
  v_from ← dict_get slots (py "from");
  parts ←
    (if truthy v_from then t ← title_of v_from; Ok (parts ++ [py "from " ++ t])
     else Ok parts);
  v_to ← dict_get slots (py "to");
  parts ←
    (if truthy v_to then t ← title_of v_to; Ok (parts ++ [py "to " ++ t])
     else Ok parts);
  let parts := if truthy date then parts ++ [py "on " ++ fmt date] else parts in
  let reply :=
    if nonempty parts then join (py " ") ([py "Got it."] ++ parts) ++ py "..."
    else py "Sure " ++ [8212] ++ py " what's your origin, destination, and date?" in
  Ok {| intent := py "search_flights"; confidence := 0.82; slots := slots;
        reply := reply; follow_up := None |}.

Definition weather (text : str) : result ChatResponse :=
  let cities := extract_cities text in
  let date := extract_date text in
  reply ←
    (if nonempty cities && truthy date then
       c ← getitem cities 0;
       Ok (py "Forecast for " ++ title c ++ py " on " ++ fmt date ++ py ": 23"
             ++ [176] ++ py "C, partly cloudy (sample).")
     else Ok (py "I can get the forecast. Which city and date?"));
  location ← (if nonempty cities then Some <$> getitem cities 0 else Ok None);
  Ok {| intent := py "weather"; confidence := 0.78;
        slots := {[ py "location" := location; py "date" := date ]};
        reply := reply; follow_up := None |}.

Definition guess_intent (message : str) : result ChatResponse :=
  let text := strip message in
  let low := lower text in
  if found GREETING low then Ok greeting_response
  else if found THANKS low then Ok thanks_response
  else if found HELP low then Ok help_response
  else if found CANCEL low && found BOOKING low then cancel_booking text
  else if found LODGING low && found RESERVE low then book_hotel text
  else if found FLIGHT low && found FROM_TO low then search_flights text low
  else if found WEATHER low then weather text
  else Ok fallback_response.

(** ** The rule table the properties are stated against

    The cascade of [guess_intent] read as the specification describes
    it: eight rules in a fixed order, each a predicate on the lowercased
    text with a name and a confidence of its own. *)

Inductive Rule :=
  | Greeting | Thanks | Help | CancelBooking | BookHotel | SearchFlights
  | Weather | Fallback.

#[global] Instance Rule_eq_dec : EqDecision Rule.
Proof. solve_decision. Defined.

Definition priority_order : list Rule :=
  [Greeting; Thanks; Help; CancelBooking; BookHotel; SearchFlights; Weather;
   Fallback].

Definition intent_name (ρ : Rule) : str :=
  match ρ with
  | Greeting => py "greeting"
  | Thanks => py "thanks"
  | Help => py "help"
  | CancelBooking => py "cancel_booking"
  | BookHotel => py "book_hotel"
  | SearchFlights => py "search_flights"
  | Weather => py "weather"
  | Fallback => py "fallback"
  end.

Definition rule_confidence (ρ : Rule) : Q :=
  match ρ with
  | Greeting => 0.95
  | Thanks => 0.95
  | Help => 0.9
  | CancelBooking => 0.85
  | BookHotel => 0.8
  | SearchFlights => 0.82
  | Weather => 0.78
  | Fallback => 0.4
  end.

Definition the_eight_intents : list str := intent_name <$> priority_order.

(** The four intents without required slots. *)
Definition slotless_intents : list str :=
  intent_name <$> [Greeting; Thanks; Help; Fallback].

Definition follow_up_text : str := py "Please provide missing details if any.".

(** What a match of a pattern can consume, whatever surrounds it. *)
Fixpoint lang (r : regex) (w : str) : Prop :=
  match r with
  | Eps => w = []
  | Fail => False
  | Chr p => ∃ c, w = [c] ∧ p c = true
  | Bnd => w = []
  | Cat r1 r2 => ∃ w1 w2, w = w1 ++ w2 ∧ lang r1 w1 ∧ lang r2 w2
  | Alt r1 r2 => lang r1 w ∨ lang r2 w
  | Opt r1 => lang r1 w ∨ w = []
  | Rep p lo hi =>
      (lo ≤ length w)%nat ∧ from_option (λ h, (length w ≤ h)%nat) True hi
      ∧ Forall (λ c, p c = true) w
  end.

(** [w] occurs in [s] as a contiguous stretch. *)
Definition substring (w s : str) : Prop := ∃ pre post, s = pre ++ w ++ post.

(** The predicate of each rule, on the lowercased text. *)
Definition satisfied (low : str) (ρ : Rule) : bool :=
  match ρ with
  | Greeting => found GREETING low
  | Thanks => found THANKS low
  | Help => found HELP low
  | CancelBooking => found CANCEL low && found BOOKING low
  | BookHotel => found LODGING low && found RESERVE low
  | SearchFlights => found FLIGHT low && found FROM_TO low
  | Weather => found WEATHER low
  | Fallback => true
  end.

(** The earliest rule of the priority order whose predicate holds. *)
Definition first_satisfied (low : str) : option Rule :=
  List.find (satisfied low) priority_order.

(** What each rule answers. *)
Definition handler (ρ : Rule) (text low : str) : result ChatResponse :=
  match ρ with
  | Greeting => Ok greeting_response
  | Thanks => Ok thanks_response
  | Help => Ok help_response
  | CancelBooking => cancel_booking text
  | BookHotel => book_hotel text
  | SearchFlights => search_flights text low
  | Weather => weather text
  | Fallback => Ok fallback_response
  end.

(** The answer of a rule, given its slot mapping and its reply. *)
Definition response (ρ : Rule) (sl : gmap str (option str)) (rep : str)
    : ChatResponse :=
  {| intent := intent_name ρ;
     confidence := rule_confidence ρ;
     slots := sl;
     reply := rep;
     follow_up := match ρ with BookHotel => Some follow_up_text | _ => None end |}.

(** Check-in and check-out as the specification words them: the first
    two structural dates when there are two, otherwise the single-date
    result and nothing. *)
Definition stay_dates (text : str) : option str * option str :=
  match finditer DATE_PATTERN text with
  | d0 :: d1 :: _ => (Some d0, Some d1)
  | _ => (extract_date text, None)
  end.

(** Origin and destination as the specification words them. *)
Definition route (cities : list str) (low : str) : option str * option str :=
  match cities with
  | c0 :: c1 :: _ => (Some c0, Some c1)
  | [c0] =>
      if contains (py "from") low then (Some c0, None)
      else if contains (py "to") low then (None, Some c0)
      else (None, None)
  | [] => (None, None)
  end.

(** The code point a match ends on: the last one consumed, or the one
    before the match when it consumed nothing. *)
Definition last_of (prev : option N) (w : str) : option N :=
  match last w with
  | Some c => Some c
  | None => prev
  end.

(** [sem r prev w rest]: the pattern [r] matches the stretch [w] of a
    text in which the code point [prev] stands before [w] and [rest]
    follows it. *)
Fixpoint sem (r : regex) (prev : option N) (w rest : str) : Prop :=
  match r with
  | Eps => w = []
  | Fail => False
  | Chr p => ∃ c, w = [c] ∧ p c = true
  | Bnd => w = [] ∧ boundary prev rest = true
  | Cat r1 r2 =>
      ∃ w1 w2, w = w1 ++ w2 ∧ sem r1 prev w1 (w2 ++ rest)
               ∧ sem r2 (last_of prev w1) w2 rest
  | Alt r1 r2 => sem r1 prev w rest ∨ sem r2 prev w rest
  | Opt r1 => sem r1 prev w rest ∨ w = []
  | Rep p lo hi =>
      (lo ≤ length w)%nat ∧ from_option (λ h, (length w ≤ h)%nat) True hi
      ∧ Forall (λ c, p c = true) w
  end.

(** No word character stands at this end of a stretch of text. *)
Definition no_word (c : option N) : Prop := from_option is_word false c = false.

(** [w] occurs in [s] as a whole word: no letter, digit or underscore
    stands directly before or after the occurrence. *)
Definition occurs_as_word (w s : str) : Prop :=
  ∃ pre post, s = pre ++ w ++ post ∧ no_word (last pre) ∧ no_word (head post).

(** One of the keywords occurs in [s] as a whole word. *)
Definition some_word (ws : list string) (s : str) : Prop :=
  ∃ w, w ∈ ws ∧ occurs_as_word (py w) s.

(** A keyword that starts and ends with a word character. *)
Definition keyword (w : string) : Prop :=
  from_option is_word false (head (py w)) = true
  ∧ from_option is_word false (last (py w)) = true.

(** The text cut into stretches: a gap, a match, a gap, ..., a gap. *)
Fixpoint weave (gaps ms : list str) : str :=
  match gaps, ms with
  | g :: gaps', m :: ms' => g ++ m ++ weave gaps' ms'
  | g :: _, [] => g
  | [], _ => []
  end.

(** The names of the ten cities of [CITY_PATTERN]. *)
Definition CITY_NAMES : list string :=
  ["paris"; "tokyo"; "rome"; "london"; "new york"; "nyc"; "madrid"; "berlin";
   "sydney"; "dubai"]%string.

(** What [BOOKING_ID_PATTERN] accepts between its two [\b]. *)
Definition booking_token (m : str) : Prop :=
  (5 ≤ length m ≤ 8)%nat ∧ Forall (λ c, upper_or_digit c = true) m.

(** The replies written as functions of the slot values of the response
    they belong to. *)
Definition cancel_reply (bid : option str) : str :=
  match bid with
  | Some b => py "Okay, I can cancel booking " ++ b ++ py ". Do you want me to proceed?"
  | None => py "I can help cancel that. What's the booking ID?"
  end.

Definition hotel_reply (loc check_in check_out : option str) : str :=
  match loc, check_in, check_out with
  | Some c, Some d1, Some d2 =>
      py "Got it. Searching hotels in " ++ title c ++ py " from " ++ d1
        ++ py " to " ++ d2 ++ py "..."
  | Some c, Some d1, None =>
      py "Great. What's your check-out date for " ++ title c ++ py " after "
        ++ d1 ++ py "?"
  | Some c, None, _ => py "Great. What dates would you like in " ++ title c ++ py "?"
  | None, _, _ => py "Sure, what city and dates are you looking at?"
  end.

Definition weather_reply (loc date : option str) : str :=
  match loc, date with
  | Some c, Some d =>
      py "Forecast for " ++ title c ++ py " on " ++ d ++ py ": 23" ++ [176]
        ++ py "C, partly cloudy (sample)."
  | _, _ => py "I can get the forecast. Which city and date?"
  end.

Definition flight_part (label : string) (shown : str → str) (v : option str)
    : list str :=
  match v with
  | Some x => [py label ++ shown x]
  | None => []
  end.

Definition flight_reply (origin destination date : option str) : str :=
  match flight_part "from " title origin ++ flight_part "to " title destination
        ++ flight_part "on " id date with
  | [] => py "Sure " ++ [8212] ++ py " what's your origin, destination, and date?"
  | parts => join (py " ") (py "Got it." :: parts) ++ py "..."
  end.

(** Lowercasing deletes no code point: a property of the Unicode
    database that some statements need. *)
Definition lower_deletes_nothing : Prop :=
  ∀ before c after, u_lower U before c after ≠ [].

(** The condition of each branch of [guess_intent], read on the
    lowercased text: which keywords of its patterns must occur there as
    whole words.  For the greeting, "good" may also be followed by white
    space and a time of day. *)
Definition greets (low : str) : Prop :=
  some_word ["hi"; "hello"; "hey"] low
  ∨ ∃ pre gap w post,
      low = pre ++ py "good" ++ gap ++ py w ++ post
      ∧ gap ≠ [] ∧ Forall (λ c, isspace c = true) gap
      ∧ w ∈ ["morning"; "afternoon"; "evening"]%string
      ∧ no_word (last pre) ∧ no_word (head post).

Definition keywords_occur (low : str) (ρ : Rule) : Prop :=
  match ρ with
  | Greeting => greets low
  | Thanks => some_word ["thanks"; "thank you"; "cheers"; "appreciate it"] low
  | Help => some_word ["help"; "what can you do"; "options"] low
  | CancelBooking =>
      some_word ["cancel"; "void"] low ∧ some_word ["booking"; "reservation"] low
  | BookHotel =>
      some_word ["hotel"; "stay"; "accommodation"] low
      ∧ some_word ["book"; "reserve"; "find"] low
  | SearchFlights =>
      some_word ["flight"; "flights"; "plane"] low ∧ some_word ["from"; "to"] low
  | Weather => some_word ["weather"; "forecast"] low
  | Fallback => True
  end.

(** The stretch [m], with [prev] before it and [rest] after it, spells
    one of the ten city names, case ignored, and stands as a whole word:
    [\b] holds at both of its ends. *)
Definition city_occurrence (prev : option N) (m rest : str) : Prop :=
  (∃ w, w ∈ CITY_NAMES ∧ Forall2 (λ x c, ignoring_case x c = true) (py w) m)
  ∧ boundary prev (m ++ rest) = true ∧ boundary (last_of prev m) rest = true.

(** [scan P prev s ms]: reading the text [s], before which [prev]
    stands, from left to right, [ms] are the successive occurrences of
    [P].  Each one starts at the first place, after the end of the one
    before, where an occurrence starts at all; the list ends when what
    is left of the text has no occurrence.  So the occurrences do not
    overlap and none is passed over. *)
Inductive scan (P : option N → str → str → Prop)
    : option N → str → list str → Prop :=
  | scan_done prev s :
      (∀ pre m post, s = pre ++ m ++ post → ¬ P (last_of prev pre) m post) →
      scan P prev s []
  | scan_match prev gap m rest ms :
      P (last_of prev gap) m rest → m ≠ [] →
      (∀ pre' m' post', gap ++ m ++ rest = pre' ++ m' ++ post' →
         P (last_of prev pre') m' post' → (length gap ≤ length pre')%nat) →
      scan P (last_of prev (gap ++ m)) rest ms →
      scan P prev (gap ++ m ++ rest) (m :: ms).

(** A decidable hypothesis that evaluates to false. *)
Ltac refuted H := apply (bool_decide_pack _) in H; vm_compute in H; destruct H.

(** A list of keywords, each starting and ending on a word character. *)
Ltac keywords := repeat constructor; vm_compute; reflexivity.

(** Strings known to be non-empty, split into head and tail. *)
Ltac nonempty_strings :=
  repeat match goal with
         | H : Forall _ (_ :: _) |- _ => apply Forall_cons in H as [? H]
         end;
  repeat match goal with
         | H : ?d ≠ [] |- _ => is_var d; destruct d; [done|]; clear H
         end.

(** The entry of [INTENTS] at an index, and its name. *)
Ltac catalog_entry i :=
  eexists; split; [by apply (list_elem_of_lookup_2 _ i) |];
  split; [reflexivity |].

(** ** Properties *)

(** *** Dispatch *)

Lemma guess_intent_dispatch (msg : str) :
  ∃ ρ, first_satisfied (lower (strip msg)) = Some ρ
       ∧ guess_intent msg = handler ρ (strip msg) (lower (strip msg)).
Proof.
  unfold guess_intent, first_satisfied, priority_order.
  cbn [List.find satisfied handler]. cbv zeta.
  repeat match goal with
         | |- context [if ?b then _ else _] => destruct b eqn:?
         end; eauto.
Qed.

(** *** Lists and strings *)

Lemma find_first {A} (f : A → bool) (l : list A) (x : A) :
  List.find f l = Some x →
  ∃ i, l !! i = Some x ∧ f x = true
       ∧ ∀ j y, (j < i)%nat → l !! j = Some y → f y = false.
Proof.
  induction l as [|a l IH]; simpl; [done|].
  destruct (f a) eqn:Hfa.
  - intros [= ->]. exists O. repeat split; [done|]. intros; lia.
  - intros (i & Hi & Hx & Hlt)%IH. exists (S i). repeat split; [done..|].
    intros [|j] y Hj; simpl; [by intros [= <-] | apply Hlt; lia].
Qed.

Lemma find_nothing {A} (f : A → bool) (l : list A) :
  List.find f l = None → ∀ y, y ∈ l → f y = false.
Proof.
  induction l as [|a l IH]; simpl; [by intros _ y ?%elem_of_nil|].
  destruct (f a) eqn:Hfa; [done|].
  intros Hl y [->|Hy]%elem_of_cons; auto.
Qed.

Lemma starts_with_spec (w s : str) :
  starts_with w s = true ↔ ∃ post, s = w ++ post.
Proof.
  revert s. induction w as [|x w IH]; intros s; simpl.
  - split; [by exists s | done].
  - destruct s as [|c s]; [split; [done | by intros (? & ?)]|].
    rewrite andb_true_iff, N.eqb_eq, IH. split.
    + intros (-> & post & ->). by exists post.
    + intros (post & [= -> ->]). eauto.
Qed.

Lemma contains_spec (w s : str) : contains w s = true ↔ substring w s.
Proof.
  unfold substring. induction s as [|c s IH]; simpl.
  - rewrite orb_false_r, starts_with_spec. split.
    + intros (post & ->). by exists [], post.
    + intros ([|??] & post & H); [by exists post | done].
  - rewrite orb_true_iff, starts_with_spec, IH. split.
    + intros [(post & ->)|(pre & post & ->)];
        [by exists [], post | by exists (c :: pre), post].
    + intros ([|c' pre] & post & H); [left; by exists post|].
      injection H as -> ->. right. by exists pre, post.
Qed.

Lemma lstrip_spaces (ws s : str) :
  Forall (λ c, isspace c = true) ws → lstrip (ws ++ s) = lstrip s.
Proof. induction 1 as [|c ws Hc _ IH]; simpl; [done | by rewrite Hc]. Qed.

Lemma lstrip_only_spaces (ws : str) :
  Forall (λ c, isspace c = true) ws → lstrip ws = [].
Proof. intros H. by rewrite <- (app_nil_r ws), lstrip_spaces. Qed.

Lemma rstrip_spaces (s ws : str) :
  Forall (λ c, isspace c = true) ws → rstrip (s ++ ws) = rstrip s.
Proof.
  intros H. unfold rstrip. rewrite reverse_app, lstrip_spaces; [done|].
  by apply Forall_reverse.
Qed.

Lemma lstrip_app (s ws : str) :
  Forall (λ c, isspace c = true) ws →
  lstrip (s ++ ws) = lstrip s ++ ws ∨ (lstrip (s ++ ws) = [] ∧ lstrip s = []).
Proof.
  intros H. induction s as [|c s IH]; simpl.
  - right. by rewrite lstrip_only_spaces.
  - destruct (isspace c); [done | by left].
Qed.

Lemma strip_spaces (ws1 s ws2 : str) :
  Forall (λ c, isspace c = true) ws1 → Forall (λ c, isspace c = true) ws2 →
  strip (ws1 ++ s ++ ws2) = strip s.
Proof.
  intros H1 H2. unfold strip. rewrite lstrip_spaces by done.
  destruct (lstrip_app s ws2 H2) as [->|[-> ->]]; [|done].
  by apply rstrip_spaces.
Qed.

(** *** The matcher consumes what the pattern describes *)

Lemma rep_ends_lang p lo hi prev s e :
  e ∈ rep_ends p lo hi prev s → ∃ w, s = w ++ e.2 ∧ lang (Rep p lo hi) w.
Proof.
  revert lo hi prev.
  induction s as [|c s IH]; intros lo hi prev He; simpl in He.
  - destruct lo; [|by apply elem_of_nil in He].
    apply list_elem_of_singleton in He as ->. exists []. simpl.
    repeat split; [lia | by destruct hi; simpl; lia | constructor].
  - assert (Hhere : e ∈ match lo with O => [(prev, c :: s)] | S _ => [] end →
                    ∃ w, c :: s = w ++ e.2 ∧ lang (Rep p lo hi) w).
    { destruct lo; [|by intros ?%elem_of_nil].
      intros ->%list_elem_of_singleton. exists []. simpl.
      repeat split; [lia | by destruct hi; simpl; lia | constructor]. }
    destruct (p c) eqn:Hp; [|by apply Hhere].
    destruct (bool_decide (hi = Some O)) eqn:Hhi; [by apply Hhere|].
    apply bool_decide_eq_false in Hhi. simpl in He.
    apply elem_of_app in He as [He|He]; [|by apply Hhere].
    apply IH in He as (w & -> & Hlo & Hbound & Hall).
    exists (c :: w). simpl. repeat split; [lia | | by constructor].
    destruct hi as [[|h]|]; simpl in *; [congruence | lia | done].
Qed.

Lemma ends_lang r prev s e : e ∈ ends r prev s → ∃ w, s = w ++ e.2 ∧ lang r w.
Proof.
  revert prev s e.
  induction r as [| |p| |r1 IH1 r2 IH2|r1 IH1 r2 IH2|r1 IH1|p lo hi];
    intros prev s e He; simpl in He.
  - apply list_elem_of_singleton in He as ->. by exists [].
  - by apply elem_of_nil in He.
  - destruct s as [|c s]; [by apply elem_of_nil in He|].
    destruct (p c) eqn:Hp; [|by apply elem_of_nil in He].
    apply list_elem_of_singleton in He as ->. exists [c]. simpl. eauto.
  - destruct (boundary prev s); [|by apply elem_of_nil in He].
    apply list_elem_of_singleton in He as ->. by exists [].
  - apply list_elem_of_bind in He as (e1 & He & He1).
    apply IH1 in He1 as (w1 & -> & Hw1). apply IH2 in He as (w2 & Hs & Hw2).
    exists (w1 ++ w2). rewrite Hs, (assoc_L (++)). simpl. eauto 10.
  - apply elem_of_app in He as [He|He].
    + apply IH1 in He as (w & -> & Hw). exists w. simpl. eauto.
    + apply IH2 in He as (w & -> & Hw). exists w. simpl. eauto.
  - apply elem_of_app in He as [He|He].
    + apply IH1 in He as (w & -> & Hw). exists w. simpl. eauto.
    + apply list_elem_of_singleton in He as ->. exists []. simpl. eauto.
  - by apply rep_ends_lang in He.
Qed.

Lemma matched_app (w : str) (e : option N * str) : matched (w ++ e.2) e = w.
Proof.
  unfold matched. rewrite length_app.
  replace (length w + length e.2 - length e.2)%nat with (length w) by lia.
  by rewrite take_app_length.
Qed.

Lemma search_from_lang r prev s m :
  search_from r prev s = Some m → lang r m ∧ substring m s.
Proof.
  revert prev. induction s as [|c s IH]; intros prev; simpl.
  - destruct (ends r prev []) as [|e es] eqn:He; [done|]. intros [= <-].
    destruct (ends_lang r prev [] e) as (w & Hs & Hw); [rewrite He; left|].
    rewrite Hs, matched_app. split; [done|]. by exists [], e.2.
  - destruct (ends r prev (c :: s)) as [|e es] eqn:He.
    + intros [Hm (pre & post & ->)]%IH. split; [done|]. by exists (c :: pre), post.
    + intros [= <-].
      destruct (ends_lang r prev (c :: s) e) as (w & Hs & Hw); [rewrite He; left|].
      rewrite Hs, matched_app. split; [done|]. by exists [], e.2.
Qed.

Lemma search_lang r s m : search r s = Some m → lang r m ∧ substring m s.
Proof. apply search_from_lang. Qed.

(** A match of [BOOKING_ID_PATTERN] is five to eight upper-case letters
    or digits. *)
Lemma booking_id_lang (m : str) :
  lang BOOKING_ID_PATTERN m →
  (5 ≤ length m ≤ 8)%nat ∧ Forall (λ c, upper_or_digit c = true) m.
Proof.
  simpl. intros (w1 & w2 & -> & -> & w3 & w4 & -> & (? & ? & ?) & w5 & w6 & -> & -> & ->).
  rewrite !app_nil_r. simpl. auto.
Qed.

Lemma booking_id_truthy (text m : str) :
  search BOOKING_ID_PATTERN text = Some m → truthy (Some m) = true.
Proof.
  intros [[Hlen _]%booking_id_lang _]%search_lang.
  destruct m; simpl in *; [lia | done].
Qed.

Lemma lang_literal (w m : str) : lang (cats (Chr ∘ exactly <$> w)) m → m = w.
Proof.
  revert m. induction w as [|x w IH]; intros m; simpl; [done|].
  intros (w1 & w2 & -> & (c & -> & ->%N.eqb_eq) & ->%IH). done.
Qed.

Lemma lang_alts (rs : list regex) (m : str) :
  lang (alts rs) m → ∃ r, r ∈ rs ∧ lang r m.
Proof.
  induction rs as [|r rs IH]; simpl; [done|].
  intros [Hr|(r' & Hin & Hr')%IH].
  - exists r. split; [left | done].
  - exists r'. split; [by right | done].
Qed.

Lemma lang_whole_word (rs : list regex) (m : str) :
  lang (whole_word rs) m → ∃ r, r ∈ rs ∧ lang r m.
Proof.
  simpl. intros (w1 & w2 & -> & -> & w3 & w4 & -> & H & w5 & w6 & -> & -> & ->).
  rewrite !app_nil_r. simpl. by apply lang_alts.
Qed.

(** Where [\b(from|to)\b] finds a match, the text contains "from" or
    "to". *)
Lemma from_to_contains (low : str) :
  found FROM_TO low = true →
  contains (py "from") low = true ∨ contains (py "to") low = true.
Proof.
  unfold found. destruct (search FROM_TO low) as [m|] eqn:Hm; [intros _ | done].
  apply search_lang in Hm as [(r & Hr & Hlang)%lang_whole_word Hsub%contains_spec].
  simpl in Hr. apply elem_of_cons in Hr as [->|Hr].
  { apply lang_literal in Hlang as ->. by left. }
  apply list_elem_of_singleton in Hr as ->.
  apply lang_literal in Hlang as ->. by right.
Qed.

(** *** What each rule answers *)

Lemma cancel_booking_shape (text : str) :
  ∃ rep, cancel_booking text =
    Ok (response CancelBooking
          (match search BOOKING_ID_PATTERN text with
           | Some m => {[ py "booking_id" := Some m ]}
           | None => ∅
           end) rep).
Proof.
  unfold cancel_booking.
  destruct (search BOOKING_ID_PATTERN text) as [m|] eqn:Hm.
  - rewrite (booking_id_truthy _ _ Hm). by eexists.
  - by eexists.
Qed.

Lemma book_hotel_shape (text : str) :
  ∃ rep, book_hotel text =
    Ok (response BookHotel
          {[ py "location" := head (extract_cities text);
             py "check_in" := (stay_dates text).1;
             py "check_out" := (stay_dates text).2 ]} rep).
Proof.
  unfold book_hotel, stay_dates.
  destruct (finditer DATE_PATTERN text) as [|[|x0 d0] [|[|x1 d1] ds]];
    destruct (extract_cities text) as [|c cs];
    destruct (extract_date text) as [[|y d]|];
    eexists; reflexivity.
Qed.

Lemma search_flights_shape (text low : str) :
  ∃ rep, search_flights text low =
    Ok (response SearchFlights
          {[ py "from" := (route (extract_cities text) low).1;
             py "to" := (route (extract_cities text) low).2;
             py "date" := extract_date text ]} rep).
Proof.
  unfold search_flights, route.
  destruct (extract_cities text) as [|[|x0 c0] [|[|x1 c1] cs]];
    destruct (extract_date text) as [[|y d]|];
    destruct (contains (py "from") low), (contains (py "to") low);
    eexists; reflexivity.
Qed.

Lemma weather_shape (text : str) :
  ∃ rep, weather text =
    Ok (response Weather
          {[ py "location" := head (extract_cities text);
             py "date" := extract_date text ]} rep).
Proof.
  unfold weather.
  destruct (extract_cities text) as [|c cs];
    destruct (extract_date text) as [[|y d]|];
    eexists; reflexivity.
Qed.

Lemma handler_shape (ρ : Rule) (text low : str) :
  ∃ sl rep, handler ρ text low = Ok (response ρ sl rep)
            ∧ (intent_name ρ ∈ slotless_intents → sl = ∅).
Proof.
  destruct ρ; simpl.
  - by exists ∅, (reply greeting_response).
  - by exists ∅, (reply thanks_response).
  - by exists ∅, (reply help_response).
  - destruct (cancel_booking_shape text) as [rep ->]. eexists _, rep.
    split; [done|]. intros H. refuted H.
  - destruct (book_hotel_shape text) as [rep ->]. eexists _, rep.
    split; [done|]. intros H. refuted H.
  - destruct (search_flights_shape text low) as [rep ->]. eexists _, rep.
    split; [done|]. intros H. refuted H.
  - destruct (weather_shape text) as [rep ->]. eexists _, rep.
    split; [done|]. intros H. refuted H.
  - by exists ∅, (reply fallback_response).
Qed.

Lemma intent_name_inj (ρ1 ρ2 : Rule) : intent_name ρ1 = intent_name ρ2 → ρ1 = ρ2.
Proof. destruct ρ1, ρ2; intros H; try done; by vm_compute in H. Qed.

(** An utterance classified under a rule's name was answered by that
    rule, and that rule is the first whose predicate holds. *)
Lemma classified_as (msg : str) (r : ChatResponse) (ρ : Rule) :
  guess_intent msg = Ok r → intent r = intent_name ρ →
  first_satisfied (lower (strip msg)) = Some ρ
  ∧ handler ρ (strip msg) (lower (strip msg)) = Ok r.
Proof.
  destruct (guess_intent_dispatch msg) as (ρ' & Hfirst & ->).
  destruct (handler_shape ρ' (strip msg) (lower (strip msg))) as (sl & rep & Hh & _).
  intros Hr Hname. rewrite Hh in Hr. injection Hr as <-.
  apply intent_name_inj in Hname as <-. by rewrite Hh.
Qed.

(** Position in the priority order. *)
Lemma first_satisfied_spec (low : str) (ρ : Rule) :
  first_satisfied low = Some ρ →
  satisfied low ρ = true
  ∧ ∀ i j ρ', priority_order !! i = Some ρ' → priority_order !! j = Some ρ →
              (i < j)%nat → satisfied low ρ' = false.
Proof.
  intros (k & Hk & Hsat & Hbefore)%find_first. split; [done|].
  intros i j ρ' Hi Hj Hlt. apply (Hbefore i); [|done].
  assert (NoDup priority_order) as Hnd by compute_done.
  by rewrite (NoDup_lookup _ _ _ _ Hnd Hk Hj).
Qed.

Lemma guess_intent_shape (msg : str) :
  ∃ ρ sl rep,
    first_satisfied (lower (strip msg)) = Some ρ
    ∧ guess_intent msg = Ok (response ρ sl rep)
    ∧ (intent_name ρ ∈ slotless_intents → sl = ∅).
Proof.
  destruct (guess_intent_dispatch msg) as (ρ & Hfirst & ->).
  destruct (handler_shape ρ (strip msg) (lower (strip msg))) as (sl & rep & -> & Hsl).
  by exists ρ, sl, rep.
Qed.

(** *** The classification result *)

(** C1, as amended.  For every utterance the reported intent is that of
    the earliest rule, in the order greeting, thanks, help,
    cancel_booking, book_hotel, search_flights, weather, fallback, whose
    predicate holds of the lowercased text: its predicate holds and that
    of every rule before it fails.  "cancel my hotel booking ABC123" is
    answered cancel_booking with slots {booking_id: "ABC123"}; it
    satisfies the cancel-booking predicate and the lodging half of the
    book-hotel predicate, but not its action half, because "booking" is
    not the word "book": the book-hotel predicate is false of it.
    "cancel my booking ABC123 and book a hotel" does satisfy both
    predicates and is answered cancel_booking. *)
Theorem first_match_wins :
  (∀ msg : str, ∃ ρ r,
      guess_intent msg = Ok r ∧ intent r = intent_name ρ
      ∧ satisfied (lower (strip msg)) ρ = true
      ∧ ∀ i j ρ', priority_order !! i = Some ρ' → priority_order !! j = Some ρ →
                  (i < j)%nat → satisfied (lower (strip msg)) ρ' = false)
  ∧ (let msg := py "cancel my hotel booking ABC123" in
     ∃ r, guess_intent msg = Ok r ∧ intent r = py "cancel_booking"
          ∧ slots r = {[ py "booking_id" := Some (py "ABC123") ]}
          ∧ satisfied (lower (strip msg)) CancelBooking = true
          ∧ found LODGING (lower (strip msg)) = true
          ∧ found RESERVE (lower (strip msg)) = false
          ∧ satisfied (lower (strip msg)) BookHotel = false)
  ∧ (let msg := py "cancel my booking ABC123 and book a hotel" in
     ∃ r, guess_intent msg = Ok r ∧ intent r = py "cancel_booking"
          ∧ satisfied (lower (strip msg)) CancelBooking = true
          ∧ satisfied (lower (strip msg)) BookHotel = true).
Proof.
  split; [|split].
  - intros msg. destruct (guess_intent_shape msg) as (ρ & sl & rep & Hfirst & -> & _).
    exists ρ, (response ρ sl rep). split; [done|]. split; [done|].
    by apply first_satisfied_spec.
  - cbv zeta. eexists. split; [vm_compute; reflexivity|].
    repeat split; vm_compute; reflexivity.
  - cbv zeta. eexists. split; [vm_compute; reflexivity|].
    repeat split; vm_compute; reflexivity.
Qed.

(** C2.  [guess_intent] raises on no input, ASCII or not: it returns a
    response whose intent is one of the eight names, which are pairwise
    different; when none of the seven proper rules matches, the response
    is the fallback one; the empty string is answered fallback with
    confidence 0.4. *)
Theorem classify_total :
  (∀ msg : str, ∃ r,
      guess_intent msg = Ok r ∧ intent r ∈ the_eight_intents
      ∧ ((∀ ρ, ρ ≠ Fallback → satisfied (lower (strip msg)) ρ = false) →
         r = fallback_response))
  ∧ NoDup the_eight_intents ∧ length the_eight_intents = 8%nat
  ∧ guess_intent [] = Ok fallback_response
  ∧ intent fallback_response = py "fallback"
  ∧ confidence fallback_response = 0.4%Q.
Proof.
  split;
    [|split; [compute_done|]; split; [reflexivity|];
      split; [vm_compute; reflexivity|]; split; reflexivity].
  intros msg. destruct (guess_intent_dispatch msg) as (ρ & Hfirst & ->).
  destruct (handler_shape ρ (strip msg) (lower (strip msg))) as (sl & rep & Hh & _).
  rewrite Hh. eexists. split; [done|]. split.
  - simpl. apply list_elem_of_fmap_2. destruct ρ; compute_done.
  - intros Hnone. apply first_satisfied_spec in Hfirst as [Hsat _].
    destruct (decide (ρ = Fallback)) as [->|Hne]; [|by rewrite Hnone in Hsat].
    simpl in Hh. congruence.
Qed.

(** C3.  A response whose intent is greeting, thanks, help or fallback
    has the empty slot mapping, whatever the utterance contains:
    "hi, I'm in Paris" names a known city and is answered greeting with
    no slots. *)
Theorem slotless_intents_have_no_slots :
  (∀ (msg : str) (r : ChatResponse),
      guess_intent msg = Ok r → intent r ∈ slotless_intents → slots r = ∅)
  ∧ (let msg := py "hi, I'm in Paris" in
     extract_cities (strip msg) = [py "paris"]
     ∧ ∃ r, guess_intent msg = Ok r ∧ intent r = py "greeting" ∧ slots r = ∅).
Proof.
  split.
  - intros msg r Hr Hin.
    destruct (guess_intent_shape msg) as (ρ & sl & rep & _ & Hg & Hsl).
    rewrite Hg in Hr. injection Hr as <-. by apply Hsl.
  - cbv zeta. split; [vm_compute; reflexivity|].
    eexists. split; [vm_compute; reflexivity|]. split; vm_compute; reflexivity.
Qed.

(** C7.  The follow-up of a response is set exactly when its intent is
    book_hotel, and is then the fixed sentence "Please provide missing
    details if any."; every other response has none. *)
Theorem follow_up_only_for_book_hotel (msg : str) :
  ∃ r, guess_intent msg = Ok r
       ∧ (follow_up r ≠ None ↔ intent r = py "book_hotel")
       ∧ (intent r = py "book_hotel" →
          follow_up r = Some (py "Please provide missing details if any."))
       ∧ (intent r ≠ py "book_hotel" → follow_up r = None).
Proof.
  destruct (guess_intent_shape msg) as (ρ & sl & rep & _ & -> & _).
  eexists. split; [done|].
  destruct ρ; simpl; repeat split; try done;
    try (intros H; by vm_compute in H).
Qed.

(** C8.  The confidence of a response is the constant of the rule that
    answered: greeting 0.95, thanks 0.95, help 0.9, cancel_booking 0.85,
    book_hotel 0.8, search_flights 0.82, weather 0.78, fallback 0.4.  It
    lies in (0,1] and depends on the utterance only through the intent:
    two responses with the same intent have the same confidence. *)
Theorem confidence_fixed_per_intent :
  (∀ msg : str, ∃ ρ r,
      guess_intent msg = Ok r ∧ intent r = intent_name ρ
      ∧ confidence r = rule_confidence ρ
      ∧ (0 < confidence r)%Q ∧ (confidence r <= 1)%Q)
  ∧ (∀ (msg1 msg2 : str) (r1 r2 : ChatResponse),
       guess_intent msg1 = Ok r1 → guess_intent msg2 = Ok r2 →
       intent r1 = intent r2 → confidence r1 = confidence r2)
  ∧ (λ ρ, (intent_name ρ, rule_confidence ρ)) <$> priority_order =
    [ (py "greeting", 0.95%Q); (py "thanks", 0.95%Q); (py "help", 0.9%Q);
      (py "cancel_booking", 0.85%Q); (py "book_hotel", 0.8%Q);
      (py "search_flights", 0.82%Q); (py "weather", 0.78%Q);
      (py "fallback", 0.4%Q) ].
Proof.
  split; [|split; [|reflexivity]].
  - intros msg. destruct (guess_intent_shape msg) as (ρ & sl & rep & _ & -> & _).
    exists ρ, (response ρ sl rep). repeat split; destruct ρ; by vm_compute.
  - intros msg1 msg2 r1 r2 H1 H2 Hsame.
    destruct (guess_intent_shape msg1) as (ρ1 & sl1 & rep1 & _ & Hg1 & _).
    destruct (guess_intent_shape msg2) as (ρ2 & sl2 & rep2 & _ & Hg2 & _).
    rewrite Hg1 in H1. rewrite Hg2 in H2. injection H1 as <-. injection H2 as <-.
    simpl in *. by apply intent_name_inj in Hsame as ->.
Qed.

(** C4.  A book_hotel response has exactly the slots location, check_in
    and check_out.  location is the first match of the city pattern,
    lowercased, or null.  When the date pattern has two or more matches
    in the text, check_in is the first and check_out the second;
    otherwise check_in is the result of [extract_date] and check_out is
    null.  "Book a hotel in Paris from 2024-07-01 to 2024-07-05" gives
    {location: "paris", check_in: "2024-07-01", check_out: "2024-07-05"}
    and a follow-up. *)
Theorem book_hotel_slots :
  (∀ (msg : str) (r : ChatResponse),
      guess_intent msg = Ok r → intent r = py "book_hotel" →
      let text := strip msg in
      dom (slots r) = ({[ py "location"; py "check_in"; py "check_out" ]} : gset str)
      ∧ slots r !! py "location" = Some (lower <$> head (finditer CITY_PATTERN text))
      ∧ match finditer DATE_PATTERN text with
        | d0 :: d1 :: _ =>
            slots r !! py "check_in" = Some (Some d0)
            ∧ slots r !! py "check_out" = Some (Some d1)
        | _ =>
            slots r !! py "check_in" = Some (extract_date text)
            ∧ slots r !! py "check_out" = Some None
        end)
  ∧ (let msg := py "Book a hotel in Paris from 2024-07-01 to 2024-07-05" in
     ∃ r, guess_intent msg = Ok r ∧ intent r = py "book_hotel"
          ∧ slots r = {[ py "location" := Some (py "paris");
                         py "check_in" := Some (py "2024-07-01");
                         py "check_out" := Some (py "2024-07-05") ]}
          ∧ follow_up r = Some (py "Please provide missing details if any.")).
Proof.
  split.
  - intros msg r Hr Hname text.
    apply (classified_as msg r BookHotel) in Hr as [_ Hh]; [|done].
    simpl in Hh. fold text in Hh.
    destruct (book_hotel_shape text) as [rep Hshape].
    rewrite Hshape in Hh. injection Hh as <-. cbn [slots response].
    split; [|split].
    + rewrite !dom_insert_L, dom_singleton_L. set_solver.
    + unfold extract_cities. by destruct (finditer CITY_PATTERN text).
    + unfold stay_dates. by destruct (finditer DATE_PATTERN text) as [|d0 [|d1 ds]].
  - cbv zeta. eexists. split; [vm_compute; reflexivity|].
    repeat split; vm_compute; reflexivity.
Qed.

(** C5, as amended.  A search_flights response has the slots from, to
    and date, and date is the result of [extract_date].  With two or
    more cities from is the first and to the second.  With exactly one
    city, it is the value of from when the lowercased text contains the
    letters "from" anywhere, also inside a longer word; otherwise the
    text contains "to" and the city is the value of to.
    With no city both are null.  "I need a flight from London to Rome"
    gives {from: "london", to: "rome", date: null};
    "Any flights to Tokyo next Friday?" gives
    {from: null, to: "tokyo", date: "next friday"}. *)
Theorem search_flights_slots :
  (∀ (msg : str) (r : ChatResponse),
      guess_intent msg = Ok r → intent r = py "search_flights" →
      let text := strip msg in
      let low := lower text in
      ∃ origin destination : option str,
        slots r = {[ py "from" := origin; py "to" := destination;
                     py "date" := extract_date text ]}
        ∧ match extract_cities text with
          | c0 :: c1 :: _ => origin = Some c0 ∧ destination = Some c1
          | [c0] =>
              if contains (py "from") low
              then origin = Some c0 ∧ destination = None
              else contains (py "to") low = true
                   ∧ origin = None ∧ destination = Some c0
          | [] => origin = None ∧ destination = None
          end)
  ∧ (∃ r, guess_intent (py "I need a flight from London to Rome") = Ok r
          ∧ intent r = py "search_flights"
          ∧ slots r = {[ py "from" := Some (py "london");
                         py "to" := Some (py "rome"); py "date" := None ]})
  ∧ (∃ r, guess_intent (py "Any flights to Tokyo next Friday?") = Ok r
          ∧ intent r = py "search_flights"
          ∧ slots r = {[ py "from" := None; py "to" := Some (py "tokyo");
                         py "date" := Some (py "next friday") ]}).
Proof.
  split; [|split].
  - intros msg r Hr Hname text low.
    apply (classified_as msg r SearchFlights) in Hr as [Hfirst Hh]; [|done].
    apply first_satisfied_spec in Hfirst as [Hsat _].
    simpl in Hsat, Hh. fold text low in Hsat, Hh.
    apply andb_true_iff in Hsat as [_ Hword%from_to_contains].
    destruct (search_flights_shape text low) as [rep Hshape].
    rewrite Hshape in Hh. injection Hh as <-. cbn [slots response].
    eexists _, _. split; [done|]. unfold route.
    destruct (extract_cities text) as [|c0 [|c1 cs]]; [done| |done].
    destruct (contains (py "from") low); [done|].
    destruct Hword as [?|Hto]; [done|]. by rewrite Hto.
  - eexists. split; [vm_compute; reflexivity|]. split; vm_compute; reflexivity.
  - eexists. split; [vm_compute; reflexivity|]. split; vm_compute; reflexivity.
Qed.

(** C6.  A cancel_booking response has no slot at all when
    [BOOKING_ID_PATTERN] finds nothing in the text, and the single slot
    booking_id, holding the first match, when it finds something; a
    match is a run of five to eight upper-case letters or digits.
    "I want to cancel my reservation" is answered cancel_booking with
    the empty mapping: booking_id is not one of its keys. *)
Theorem cancel_booking_slots :
  (∀ (msg : str) (r : ChatResponse),
      guess_intent msg = Ok r → intent r = py "cancel_booking" →
      match search BOOKING_ID_PATTERN (strip msg) with
      | None => slots r = ∅ ∧ size (slots r) = O
      | Some m =>
          slots r = {[ py "booking_id" := Some m ]}
          ∧ (5 ≤ length m ≤ 8)%nat
          ∧ Forall (λ c, ascii_isupper c || ascii_isdigit c = true) m
      end)
  ∧ (∃ r, guess_intent (py "I want to cancel my reservation") = Ok r
          ∧ intent r = py "cancel_booking" ∧ slots r = ∅
          ∧ slots r !! py "booking_id" = None).
Proof.
  split.
  - intros msg r Hr Hname.
    apply (classified_as msg r CancelBooking) in Hr as [_ Hh]; [|done].
    simpl in Hh. destruct (cancel_booking_shape (strip msg)) as [rep Hshape].
    rewrite Hshape in Hh. injection Hh as <-. cbn [slots response].
    destruct (search BOOKING_ID_PATTERN (strip msg)) as [m|] eqn:Hm; [|done].
    split; [done|]. by apply search_lang in Hm as [?%booking_id_lang _].
  - eexists. split; [vm_compute; reflexivity|]. repeat split; vm_compute; reflexivity.
Qed.

(** C9.  When [DATE_PATTERN] finds nothing in the text, [extract_date]
    returns the first entry of [DATE_WORDS] that occurs in the
    lowercased text: the entry occurs there and no entry before it in
    the list does; it returns null when no entry occurs.  The order is
    that of the list, not that of the text: "Tomorrow or today" gives
    "today". *)
Theorem extract_date_follows_list_order :
  (∀ text : str,
      search DATE_PATTERN text = None →
      match extract_date text with
      | Some w =>
          ∃ i, DATE_WORDS !! i = Some w ∧ substring w (lower text)
               ∧ ∀ j w', (j < i)%nat → DATE_WORDS !! j = Some w' →
                         ¬ substring w' (lower text)
      | None => ∀ w, w ∈ DATE_WORDS → ¬ substring w (lower text)
      end)
  ∧ DATE_WORDS = py <$> ["today"; "tomorrow"; "tonight"; "next monday";
                         "next tuesday"; "next wednesday"; "next thursday";
                         "next friday"; "next saturday"; "next sunday"]%string
  ∧ (let text := py "Tomorrow or today" in
     search DATE_PATTERN text = None
     ∧ substring (py "tomorrow") (lower text)
     ∧ extract_date text = Some (py "today")).
Proof.
  split; [|split; [reflexivity|]].
  - intros text Hnone. unfold extract_date. rewrite Hnone.
    destruct (List.find _ DATE_WORDS) as [w|] eqn:Hfind.
    + apply find_first in Hfind as (i & Hi & Hw & Hbefore).
      exists i. split; [done|]. split; [by apply contains_spec|].
      intros j w' Hlt Hj Hsub%contains_spec.
      by rewrite (Hbefore j w' Hlt Hj) in Hsub.
    + intros w Hin Hsub%contains_spec.
      by rewrite (find_nothing _ _ Hfind w Hin) in Hsub.
  - cbv zeta. split; [vm_compute; reflexivity|]. split; [|vm_compute; reflexivity].
    apply contains_spec. vm_compute; reflexivity.
Qed.

(** C10.  White space around an utterance changes nothing: with any
    code points that [str.strip] removes added in front and behind, the
    response, that is its intent, confidence, slots, reply and
    follow-up, is the one of the utterance itself. *)
Theorem surrounding_whitespace_is_ignored (ws1 msg ws2 : str) :
  Forall (λ c, isspace c = true) ws1 →
  Forall (λ c, isspace c = true) ws2 →
  ∃ r, guess_intent msg = Ok r ∧ guess_intent (ws1 ++ msg ++ ws2) = Ok r.
Proof.
  intros H1 H2. destruct (guess_intent_shape msg) as (ρ & sl & rep & _ & Hg & _).
  eexists. split; [done|]. rewrite <- Hg.
  unfold guess_intent. by rewrite strip_spaces.
Qed.

(** ** Further properties of the code *)

(** *** The matcher against the meaning of a pattern *)

Lemma last_of_nil (prev : option N) : last_of prev [] = prev.
Proof. done. Qed.

Lemma last_of_cons (prev : option N) (c : N) (w : str) :
  last_of prev (c :: w) = last_of (Some c) w.
Proof.
  unfold last_of. rewrite last_cons. by destruct (last w).
Qed.

Lemma last_of_app (prev : option N) (w1 w2 : str) :
  last_of prev (w1 ++ w2) = last_of (last_of prev w1) w2.
Proof.
  revert prev. induction w1 as [|c w1 IH]; intros prev; [done|].
  simpl. by rewrite !last_of_cons, IH.
Qed.

Lemma last_of_None (w : str) : last_of None w = last w.
Proof. unfold last_of. by destruct (last w). Qed.

Lemma rep_ends_sem p lo hi prev s e :
  e ∈ rep_ends p lo hi prev s ↔
  ∃ w, s = w ++ e.2 ∧ e.1 = last_of prev w ∧ sem (Rep p lo hi) prev w e.2.
Proof.
  split.
  - revert lo hi prev.
    induction s as [|c s IH]; intros lo hi prev He; simpl in He.
    + destruct lo; [|by apply elem_of_nil in He].
      apply list_elem_of_singleton in He as ->. exists []. simpl.
      repeat split; [lia | by destruct hi; simpl; lia | constructor].
    + assert (Hhere : e ∈ match lo with O => [(prev, c :: s)] | S _ => [] end →
                      ∃ w, c :: s = w ++ e.2 ∧ e.1 = last_of prev w
                           ∧ sem (Rep p lo hi) prev w e.2).
      { destruct lo; [|by intros ?%elem_of_nil].
        intros ->%list_elem_of_singleton. exists []. simpl.
        repeat split; [lia | by destruct hi; simpl; lia | constructor]. }
      destruct (p c) eqn:Hp; [|by apply Hhere].
      destruct (bool_decide (hi = Some O)) eqn:Hhi; [by apply Hhere|].
      apply bool_decide_eq_false in Hhi. simpl in He.
      apply elem_of_app in He as [He|He]; [|by apply Hhere].
      apply IH in He as (w & -> & Hlast & Hlo & Hbound & Hall).
      exists (c :: w). rewrite last_of_cons. simpl.
      repeat split; [done | lia | | by constructor].
      destruct hi as [[|h]|]; simpl in *; [congruence | lia | done].
  - intros (w & -> & Hlast & Hlo & Hbound & Hall).
    destruct e as [e1 rest]. simpl in *. subst e1.
    revert lo hi prev Hlo Hbound.
    induction Hall as [|c w Hc Hall IH]; intros lo hi prev Hlo Hbound; simpl in *.
    + assert (lo = O) as -> by lia. rewrite last_of_nil.
      destruct rest as [|d rest]; simpl; [left|].
      destruct (p d && negb (bool_decide (hi = Some O)));
        [apply elem_of_app; right; left | left].
    + rewrite Hc, last_of_cons.
      assert (bool_decide (hi = Some O) = false) as ->.
      { apply bool_decide_eq_false. intros ->. simpl in Hbound. lia. }
      simpl. apply elem_of_app. left. apply IH; [lia|].
      destruct hi as [h|]; simpl in *; [lia | done].
Qed.

Lemma ends_sem r prev s e :
  e ∈ ends r prev s ↔ ∃ w, s = w ++ e.2 ∧ e.1 = last_of prev w ∧ sem r prev w e.2.
Proof.
  revert prev s e.
  induction r as [| |p| |r1 IH1 r2 IH2|r1 IH1 r2 IH2|r1 IH1|p lo hi];
    intros prev s e; simpl.
  - rewrite list_elem_of_singleton. split.
    + intros ->. by exists [].
    + intros (w & -> & He & ->). destruct e; simpl in *. by subst.
  - rewrite elem_of_nil. split; [done | by intros (? & ? & ? & ?)].
  - split.
    + destruct s as [|c s]; [by intros ?%elem_of_nil|].
      destruct (p c) eqn:Hp; [|by intros ?%elem_of_nil].
      intros ->%list_elem_of_singleton. exists [c]. simpl. eauto.
    + intros (w & -> & He & c & -> & Hp). simpl. rewrite Hp.
      apply list_elem_of_singleton. destruct e; simpl in *. by subst.
  - split.
    + destruct (boundary prev s) eqn:Hb; [|by intros ?%elem_of_nil].
      intros ->%list_elem_of_singleton. by exists [].
    + intros (w & -> & He & -> & Hb). simpl in *. rewrite Hb.
      apply list_elem_of_singleton. destruct e; simpl in *. by subst.
  - rewrite list_elem_of_bind. split.
    + intros (e1 & He & He1).
      apply IH1 in He1 as (w1 & -> & Hl1 & Hw1).
      apply IH2 in He as (w2 & Hs & Hl2 & Hw2).
      exists (w1 ++ w2). rewrite Hs, (assoc_L (++)), last_of_app, <- Hl1.
      split; [done|]. split; [done|].
      exists w1, w2. rewrite <- Hl1, <- Hs. eauto.
    + intros (w & -> & He & w1 & w2 & -> & Hw1 & Hw2).
      exists (last_of prev w1, w2 ++ e.2). split.
      * apply IH2. exists w2. simpl. split; [done|].
        split; [by rewrite He, last_of_app | done].
      * apply IH1. exists w1. simpl. by rewrite <- (assoc_L (++)).
  - rewrite elem_of_app, IH1, IH2. split.
    + intros [(w & ? & ? & ?)|(w & ? & ? & ?)]; exists w; eauto.
    + intros (w & ? & ? & [?|?]); [left | right]; exists w; eauto.
  - rewrite elem_of_app, IH1, list_elem_of_singleton. split.
    + intros [(w & ? & ? & ?)|Heq]; [exists w; eauto|].
      subst e. exists []. eauto.
    + intros (w & Hs & He & [?|Hw]); [left; exists w; eauto | right].
      destruct e; simpl in *. by subst.
  - apply rep_ends_sem.
Qed.

Lemma ends_matched r prev s e :
  e ∈ ends r prev s → s = matched s e ++ e.2 ∧ sem r prev (matched s e) e.2.
Proof.
  intros (w & Hs & _ & Hsem)%ends_sem.
  rewrite Hs at 1 2 3. by rewrite matched_app.
Qed.

Lemma ends_none r prev s :
  ends r prev s = [] → ∀ m post, s = m ++ post → ¬ sem r prev m post.
Proof.
  intros Hnil m post -> Hsem.
  assert ((last_of prev m, post) ∈ ends r prev (m ++ post)) as Hin
    by (apply ends_sem; by exists m).
  rewrite Hnil in Hin. by apply elem_of_nil in Hin.
Qed.

(** [search] returns the leftmost match: the stretch it returns matches
    the pattern where it stands, and no match starts before it. *)
Lemma search_from_Some r prev s m :
  search_from r prev s = Some m →
  ∃ pre post, s = pre ++ m ++ post ∧ sem r (last_of prev pre) m post
    ∧ ∀ pre' m' post', s = pre' ++ m' ++ post' →
        sem r (last_of prev pre') m' post' → (length pre ≤ length pre')%nat.
Proof.
  revert prev. induction s as [|c s IH]; intros prev; simpl.
  - destruct (ends r prev []) as [|e es] eqn:He; [done|]. intros [= <-].
    destruct (ends_matched r prev [] e) as [Hs Hsem]; [rewrite He; left|].
    exists [], e.2. repeat split; [done..|]. intros; simpl; lia.
  - destruct (ends r prev (c :: s)) as [|e es] eqn:He.
    + intros (pre & post & -> & Hsem & Hleft)%IH.
      exists (c :: pre), post. rewrite last_of_cons. repeat split; [done..|].
      intros [|c' pre'] m' post' Hs Hsem'.
      { by apply (ends_none _ _ _ He m' post') in Hsem'. }
      simpl in Hs. injection Hs as -> Hs. rewrite last_of_cons in Hsem'.
      simpl. apply le_n_S. by apply (Hleft pre' m' post').
    + intros [= <-].
      destruct (ends_matched r prev (c :: s) e) as [Hs Hsem]; [rewrite He; left|].
      exists [], e.2. repeat split; [done..|]. intros; simpl; lia.
Qed.

Lemma search_from_None r prev s :
  search_from r prev s = None ↔
  ∀ pre m post, s = pre ++ m ++ post → ¬ sem r (last_of prev pre) m post.
Proof.
  split.
  - revert prev. induction s as [|c s IH]; intros prev; simpl.
    + destruct (ends r prev []) as [|e es] eqn:He; [intros _ | done].
      intros [|??] m post Hs; [|done]. by apply (ends_none _ _ _ He).
    + destruct (ends r prev (c :: s)) as [|e es] eqn:He; [|done].
      intros Hnone [|c' pre] m post Hs.
      { by apply (ends_none _ _ _ He). }
      simpl in Hs. injection Hs as -> Hs. rewrite last_of_cons.
      by apply (IH _ Hnone).
  - intros Hnone. destruct (search_from r prev s) as [m|] eqn:Hm; [|done].
    apply search_from_Some in Hm as (pre & post & Hs & Hsem & _).
    by destruct (Hnone pre m post).
Qed.

(** [re.search(r, s)] is true exactly when some stretch of [s] matches
    [r] where it stands. *)
Lemma found_iff r s :
  found r s = true ↔ ∃ pre m post, s = pre ++ m ++ post ∧ sem r (last pre) m post.
Proof.
  unfold found, search. destruct (search_from r None s) as [m|] eqn:Hm.
  - split; [intros _ | done].
    apply search_from_Some in Hm as (pre & post & Hs & Hsem & _).
    rewrite last_of_None in Hsem. eauto.
  - split; [done|]. intros (pre & m & post & Hs & Hsem).
    rewrite <- last_of_None in Hsem.
    by destruct (proj1 (search_from_None r None s) Hm pre m post).
Qed.

(** *** [finditer] *)

(** The first match of [finditer] is the match of [search]. *)
Lemma finditer_from_head r prev s :
  head (finditer_from r O prev s) = search_from r prev s.
Proof.
  revert prev. induction s as [|c s IH]; intros prev; simpl.
  - destruct (ends r prev []) as [|e es]; [done|]. by destruct (advances [] e).
  - destruct (ends r prev (c :: s)) as [|e es]; [apply IH|].
    by destruct (advances (c :: s) e).
Qed.

Lemma finditer_head r s : head (finditer r s) = search r s.
Proof. apply finditer_from_head. Qed.

Lemma weave_cons (c : N) (g : str) (gaps ms : list str) :
  weave ((c :: g) :: gaps) ms = c :: weave (g :: gaps) ms.
Proof. by destruct ms. Qed.

Lemma advancing_end r prev c s e :
  e ∈ ends r prev (c :: s) → advances (c :: s) e = true →
  (pred (length (matched (c :: s) e)) ≤ length s)%nat
  ∧ c :: s = matched (c :: s) e ++ drop (pred (length (matched (c :: s) e))) s.
Proof.
  intros [Hs _]%ends_matched Hadv.
  unfold advances in Hadv. apply Nat.ltb_lt in Hadv.
  assert (length (c :: s) = length (matched (c :: s) e) + length e.2)%nat as Hlen
    by (by rewrite Hs at 1; rewrite length_app).
  simpl in Hlen. split; [lia|].
  destruct (matched (c :: s) e) as [|d m] eqn:Hm; [simpl in *; lia|].
  simpl in *. injection Hs as <- ->. f_equal.
  by rewrite drop_app_length.
Qed.

Lemma standing_end s e : advances s e = false → matched s e = [].
Proof.
  unfold advances, matched. intros Hadv%Nat.ltb_ge.
  replace (length s - length e.2)%nat with O by lia. by rewrite take_0.
Qed.

(** The matches of [finditer] come in the order of the text and do not
    overlap: the text is a gap, the first match, a gap, the second
    match, and so on. *)
Lemma finditer_from_weave r skip prev s :
  (skip ≤ length s)%nat →
  ∃ gaps, length gaps = S (length (finditer_from r skip prev s))
          ∧ drop skip s = weave gaps (finditer_from r skip prev s).
Proof.
  revert skip prev. induction s as [|c s IH]; intros skip prev Hskip.
  - assert (skip = O) as -> by (simpl in Hskip; lia). simpl.
    destruct (ends r prev []) as [|e es]; [by exists [[]]|].
    assert (∀ e', advances [] e' = false) as Hstay
      by (intros e'; apply Nat.ltb_ge; simpl; lia).
    destruct (filter _ es) as [|e' l] eqn:Hf.
    + exists [[]; []]. by rewrite standing_end.
    + assert (e' ∈ filter (λ e', advances [] e' = true) es) as Hin
        by (rewrite Hf; left).
      apply list_elem_of_filter in Hin as [Hadv _]. by rewrite Hstay in Hadv.
  - destruct skip as [|k].
    + assert (Hnext : ∃ gaps, length gaps = S (length (finditer_from r O (Some c) s))
                        ∧ c :: s = weave gaps (finditer_from r O (Some c) s)).
      { destruct (IH O (Some c)) as ([|g gaps] & Hlen & Hs); [lia|done|].
        exists ((c :: g) :: gaps). split; [done|].
        rewrite weave_cons. f_equal. by rewrite drop_0 in Hs. }
      assert (Hjump : ∀ e, e ∈ ends r prev (c :: s) → advances (c :: s) e = true →
                ∃ gaps,
                  length gaps
                  = S (length (finditer_from r (pred (length (matched (c :: s) e)))
                                 (Some c) s))
                  ∧ c :: s = matched (c :: s) e
                             ++ weave gaps (finditer_from r
                                  (pred (length (matched (c :: s) e))) (Some c) s)).
      { intros e He Hadv.
        destruct (advancing_end r prev c s e He Hadv) as [Hle Hs].
        destruct (IH _ (Some c) Hle) as (gaps & Hlen & Hw).
        exists gaps. split; [done|]. by rewrite <- Hw. }
      simpl. destruct (ends r prev (c :: s)) as [|e es] eqn:He; [done|].
      destruct (advances (c :: s) e) eqn:Hadv.
      * destruct (Hjump e) as (gaps & Hlen & Hs); [left | done |].
        exists ([] :: gaps). simpl. split; [by rewrite Hlen|]. by rewrite <- Hs.
      * rewrite (standing_end _ _ Hadv).
        destruct (filter _ es) as [|e' l] eqn:Hf.
        -- destruct Hnext as (gaps & Hlen & Hs).
           exists ([] :: gaps). simpl. split; [by rewrite Hlen|]. by rewrite <- Hs.
        -- assert (e' ∈ filter (λ e', advances (c :: s) e' = true) es) as Hin
             by (rewrite Hf; left).
           apply list_elem_of_filter in Hin as [Hadv' Hin].
           destruct (Hjump e') as (gaps & Hlen & Hs); [by right | done |].
           exists ([] :: [] :: gaps). simpl. split; [by rewrite Hlen|].
           by rewrite <- Hs.
    + simpl. apply IH. simpl in Hskip. lia.
Qed.

Lemma finditer_weave r s :
  ∃ gaps, length gaps = S (length (finditer r s)) ∧ s = weave gaps (finditer r s).
Proof. apply (finditer_from_weave r O None s). lia. Qed.

(** Every match of [finditer] matches the pattern where it stands. *)
Lemma finditer_from_sem r skip prev s m :
  m ∈ finditer_from r skip prev s →
  ∃ pre post, s = pre ++ m ++ post ∧ sem r (last_of prev pre) m post.
Proof.
  revert skip prev. induction s as [|c s IH]; intros skip prev.
  - destruct skip; simpl; [|by intros ?%elem_of_nil].
    destruct (ends r prev []) as [|e es] eqn:He; [by intros ?%elem_of_nil|].
    assert (∀ e', advances [] e' = false) as Hstay
      by (intros e'; apply Nat.ltb_ge; simpl; lia).
    assert (filter (λ e', advances [] e' = true) es = []) as ->.
    { destruct (filter _ es) as [|e' l] eqn:Hf; [done|].
      assert (e' ∈ filter (λ e', advances [] e' = true) es) as Hin
        by (rewrite Hf; left).
      apply list_elem_of_filter in Hin as [Hadv _]. by rewrite Hstay in Hadv. }
    intros ->%list_elem_of_singleton.
    destruct (ends_matched r prev [] e) as [Hs Hsem]; [rewrite He; left|].
    by exists [], e.2.
  - assert (Hnext : ∀ k, m ∈ finditer_from r k (Some c) s →
              ∃ pre post, c :: s = pre ++ m ++ post ∧ sem r (last_of prev pre) m post).
    { intros k (pre & post & -> & Hsem)%IH. exists (c :: pre), post.
      by rewrite last_of_cons. }
    assert (Hhere : ∀ e, e ∈ ends r prev (c :: s) →
              ∃ pre post, c :: s = pre ++ matched (c :: s) e ++ post
                          ∧ sem r (last_of prev pre) (matched (c :: s) e) post).
    { intros e [Hs Hsem]%ends_matched. by exists [], e.2. }
    destruct skip as [|k]; simpl; [|apply Hnext].
    destruct (ends r prev (c :: s)) as [|e es] eqn:He; [apply Hnext|].
    destruct (advances (c :: s) e).
    + intros [->|Hin]%elem_of_cons; [apply Hhere; left | by apply Hnext in Hin].
    + intros [->|Hin]%elem_of_cons; [apply Hhere; left|].
      destruct (filter _ es) as [|e' l] eqn:Hf; [by apply Hnext in Hin|].
      assert (e' ∈ filter (λ e', advances (c :: s) e' = true) es) as Hin'
        by (rewrite Hf; left).
      apply list_elem_of_filter in Hin' as [_ Hin'].
      apply elem_of_cons in Hin as [->|Hin]; [apply Hhere; by right|].
      by apply Hnext in Hin.
Qed.

Lemma finditer_sem r s m :
  m ∈ finditer r s → ∃ pre post, s = pre ++ m ++ post ∧ sem r (last pre) m post.
Proof.
  intros (pre & post & Hs & Hsem)%finditer_from_sem.
  rewrite last_of_None in Hsem. eauto.
Qed.

(** *** What the keyword patterns mean *)

Lemma sem_literal (w : str) prev m rest :
  sem (cats (Chr ∘ exactly <$> w)) prev m rest ↔ m = w.
Proof.
  revert prev m. induction w as [|x w IH]; intros prev m; simpl; [done|].
  split.
  - intros (w1 & w2 & -> & (c & -> & ->%N.eqb_eq) & ->%IH). done.
  - intros ->. exists [x], w. split; [done|]. split.
    + exists x. split; [done|]. apply N.eqb_refl.
    + by apply IH.
Qed.

Lemma sem_lit (w : string) prev m rest : sem (lit w) prev m rest ↔ m = py w.
Proof. apply sem_literal. Qed.

Lemma sem_alts (rs : list regex) prev m rest :
  sem (alts rs) prev m rest ↔ ∃ r, r ∈ rs ∧ sem r prev m rest.
Proof.
  induction rs as [|r rs IH]; simpl.
  - split; [done | by intros (r & ?%elem_of_nil & _)].
  - rewrite IH. split.
    + intros [Hr|(r' & Hin & Hr')]; [exists r | exists r'];
        (split; [|done]); [left | by right].
    + intros (r' & [->|Hin]%elem_of_cons & Hr'); [by left | right; eauto].
Qed.

Lemma sem_whole_word (rs : list regex) prev m rest :
  sem (whole_word rs) prev m rest ↔
  boundary prev (m ++ rest) = true ∧ boundary (last_of prev m) rest = true
  ∧ ∃ r, r ∈ rs ∧ sem r prev m rest.
Proof.
  unfold whole_word, cats. cbn [foldr sem]. split.
  - intros (w1 & w2 & -> & [-> Hb1] & w3 & w4 & -> & Halt & w5 & w6 & -> & [-> Hb2] & ->).
    rewrite last_of_nil in *. simpl in *. rewrite app_nil_r in *.
    by apply sem_alts in Halt.
  - intros (Hb1 & Hb2 & Hr). exists [], m. rewrite last_of_nil. simpl.
    split; [done|]. split; [done|]. exists m, []. rewrite app_nil_r. simpl.
    split; [done|]. split; [by apply sem_alts|]. by exists [], [].
Qed.

Lemma boundary_before prev (m rest : str) :
  from_option is_word false (head m) = true →
  boundary prev (m ++ rest) = true ↔ no_word prev.
Proof.
  unfold boundary, no_word. intros Hm.
  destruct m as [|c m]; [done|]. simpl in *. rewrite Hm.
  by destruct (from_option is_word false prev).
Qed.

Lemma boundary_after prev (m rest : str) :
  from_option is_word false (last m) = true →
  boundary (last_of prev m) rest = true ↔ no_word (head rest).
Proof.
  unfold boundary, no_word, last_of. intros Hm.
  destruct (last m) as [c|]; [|done]. simpl in *. rewrite Hm.
  by destruct (from_option is_word false (head rest)).
Qed.

(** A pattern [\b(...)\b] whose alternatives start and end on a word
    character finds a match exactly where one of them matches with no
    word character next to it. *)
Lemma found_whole_word (rs : list regex) (s : str) :
  (∀ r prev m rest, r ∈ rs → sem r prev m rest →
     from_option is_word false (head m) = true
     ∧ from_option is_word false (last m) = true) →
  found (whole_word rs) s = true ↔
  ∃ pre m post r, s = pre ++ m ++ post ∧ r ∈ rs ∧ sem r (last pre) m post
                  ∧ no_word (last pre) ∧ no_word (head post).
Proof.
  intros Hword. rewrite found_iff. split.
  - intros (pre & m & post & -> & (Hb1 & Hb2 & r & Hr & Hsem)%sem_whole_word).
    destruct (Hword r _ _ _ Hr Hsem) as [Hh Hl].
    apply boundary_before in Hb1; [|done]. apply boundary_after in Hb2; [|done].
    by exists pre, m, post, r.
  - intros (pre & m & post & r & -> & Hr & Hsem & Hb1 & Hb2).
    destruct (Hword r _ _ _ Hr Hsem) as [Hh Hl].
    exists pre, m, post. split; [done|]. apply sem_whole_word.
    split; [by apply boundary_before|]. split; [by apply boundary_after|]. eauto.
Qed.

(** The keyword test [\b(w1|w2|...)\b]: one of the keywords occurs as a
    whole word. *)
Lemma found_keywords (ws : list string) (s : str) :
  Forall keyword ws →
  found (whole_word (lit <$> ws)) s = true ↔ some_word ws s.
Proof.
  intros Hws. rewrite found_whole_word.
  - unfold some_word, occurs_as_word. split.
    + intros (pre & m & post & r & -> & (w & -> & Hw)%list_elem_of_fmap & ->%sem_lit & ? & ?).
      exists w. split; [done|]. by exists pre, post.
    + intros (w & Hw & pre & post & -> & ? & ?).
      exists pre, (py w), post, (lit w). split; [done|].
      split; [by apply list_elem_of_fmap_2|]. by rewrite sem_lit.
  - intros r prev m rest (w & -> & Hw)%list_elem_of_fmap ->%sem_lit.
    by apply (proj1 (Forall_forall _ _) Hws).
Qed.

(** *** The rules in terms of the text *)

(** The tests of six branches, taken one by one on the lowercased text:
    the test of a branch holds exactly when its keywords occur as whole
    words, that is with no letter, digit or underscore directly before
    or after.  Whether [guess_intent] reaches the branch depends on the
    branches before it.
    thanks: one of thanks, thank you, cheers, appreciate it.  help: one
    of help, what can you do, options.  cancel_booking: cancel or
    void, and booking or reservation.  book_hotel: one of hotel, stay,
    accommodation, and one of book, reserve, find.  search_flights: one
    of flight, flights, plane, and from or to.  weather: weather or
    forecast. *)
Lemma keyword_rules (low : str) :
  (satisfied low Thanks = true ↔
     some_word ["thanks"; "thank you"; "cheers"; "appreciate it"] low)
  ∧ (satisfied low Help = true ↔
       some_word ["help"; "what can you do"; "options"] low)
  ∧ (satisfied low CancelBooking = true ↔
       some_word ["cancel"; "void"] low ∧ some_word ["booking"; "reservation"] low)
  ∧ (satisfied low BookHotel = true ↔
       some_word ["hotel"; "stay"; "accommodation"] low
       ∧ some_word ["book"; "reserve"; "find"] low)
  ∧ (satisfied low SearchFlights = true ↔
       some_word ["flight"; "flights"; "plane"] low ∧ some_word ["from"; "to"] low)
  ∧ (satisfied low Weather = true ↔ some_word ["weather"; "forecast"] low).
Proof.
  cbn [satisfied]. rewrite !andb_true_iff.
  unfold THANKS, HELP, CANCEL, BOOKING, LODGING, RESERVE, FLIGHT, FROM_TO, WEATHER.
  rewrite !found_keywords by keywords. done.
Qed.

Lemma sem_good_time prev m rest :
  sem (cats [lit "good"; Rep is_space 1 None;
             alts (lit <$> ["morning"; "afternoon"; "evening"]%string)]) prev m rest ↔
  ∃ gap w, m = py "good" ++ gap ++ py w ∧ gap ≠ []
           ∧ Forall (λ c, isspace c = true) gap
           ∧ w ∈ ["morning"; "afternoon"; "evening"]%string.
Proof.
  unfold cats. cbn [foldr sem]. split.
  - intros (w1 & w2 & -> & ->%sem_lit & w3 & w4 & -> & (Hlen & _ & Hsp)
            & w5 & w6 & -> & (r & (w & -> & Hw)%list_elem_of_fmap & ->%sem_lit)%sem_alts
            & ->).
    exists w3, w. rewrite app_nil_r. repeat split; [|done..].
    intros ->. simpl in Hlen. lia.
  - intros (gap & w & -> & Hgap & Hsp & Hw).
    exists (py "good"), (gap ++ py w). split; [done|]. split; [by apply sem_lit|].
    exists gap, (py w). split; [done|]. split.
    { repeat split; [|done]. destruct gap; simpl; [done | lia]. }
    exists (py w), []. rewrite app_nil_r. split; [done|]. split; [|done].
    apply sem_alts. exists (lit w). split; [by apply list_elem_of_fmap_2|].
    by apply sem_lit.
Qed.

Lemma last_app_nonempty {A} (l1 l2 : list A) : l2 ≠ [] → last (l1 ++ l2) = last l2.
Proof. intros H. rewrite last_app. destruct (last l2) eqn:Hl; [done|]. by apply last_None in Hl. Qed.

Lemma found_greeting (low : str) :
  found GREETING low = true ↔
  some_word ["hi"; "hello"; "hey"] low
  ∨ ∃ pre gap w post,
      low = pre ++ py "good" ++ gap ++ py w ++ post
      ∧ gap ≠ [] ∧ Forall (λ c, isspace c = true) gap
      ∧ w ∈ ["morning"; "afternoon"; "evening"]%string
      ∧ no_word (last pre) ∧ no_word (head post).
Proof.
  unfold GREETING. rewrite found_whole_word.
  - split.
    + intros (pre & m & post & r & -> & Hr & Hsem & Hb1 & Hb2).
      rewrite !elem_of_cons, elem_of_nil in Hr.
      destruct Hr as [->|[->|[->|[->|[]]]]].
      * apply sem_lit in Hsem as ->. left. exists "hi"%string.
        split; [left|]. by exists pre, post.
      * apply sem_lit in Hsem as ->. left. exists "hello"%string.
        split; [right; left|]. by exists pre, post.
      * apply sem_lit in Hsem as ->. left. exists "hey"%string.
        split; [do 2 right; left|]. by exists pre, post.
      * apply sem_good_time in Hsem as (gap & w & -> & ? & ? & ?). right.
        exists pre, gap, w, post. by rewrite <- !(assoc_L (++)).
    + intros [(w & Hw & pre & post & -> & Hb1 & Hb2)
             |(pre & gap & w & post & -> & Hgap & Hsp & Hw & Hb1 & Hb2)].
      * exists pre, (py w), post, (lit w). split; [done|]. split.
        { rewrite !elem_of_cons, elem_of_nil in Hw. rewrite !elem_of_cons.
          destruct Hw as [->|[->|[->|[]]]]; auto. }
        by rewrite sem_lit.
      * eexists pre, (py "good" ++ gap ++ py w), post, _.
        split; [by rewrite <- !(assoc_L (++))|]. split; [do 3 right; left|].
        split; [|done]. apply sem_good_time. by exists gap, w.
  - intros r prev m rest Hr Hsem. rewrite !elem_of_cons, elem_of_nil in Hr.
    destruct Hr as [->|[->|[->|[->|[]]]]];
      [apply sem_lit in Hsem as ->; by vm_compute..|].
    apply sem_good_time in Hsem as (gap & w & -> & _ & _ & Hw).
    split; [done|]. rewrite (assoc_L (++)), last_app_nonempty.
    + rewrite !elem_of_cons, elem_of_nil in Hw.
      destruct Hw as [->|[->|[->|[]]]]; by vm_compute.
    + rewrite !elem_of_cons, elem_of_nil in Hw.
      destruct Hw as [->|[->|[->|[]]]]; by vm_compute.
Qed.

(** X2.  An utterance gets the fixed greeting answer exactly when its
    lowercased text contains hi, hello or hey as a whole word, or
    "good", white space, and one of morning, afternoon, evening, the
    whole not touching a word character; nothing else in the utterance
    matters. *)
Theorem greeting_rule (msg : str) :
  guess_intent msg = Ok greeting_response ↔
  some_word ["hi"; "hello"; "hey"] (lower (strip msg))
  ∨ ∃ pre gap w post,
      lower (strip msg) = pre ++ py "good" ++ gap ++ py w ++ post
      ∧ gap ≠ [] ∧ Forall (λ c, isspace c = true) gap
      ∧ w ∈ ["morning"; "afternoon"; "evening"]%string
      ∧ no_word (last pre) ∧ no_word (head post).
Proof.
  rewrite <- found_greeting. split.
  - intros Hg. apply (classified_as msg _ Greeting) in Hg as [Hfirst _]; [|done].
    by apply first_satisfied_spec in Hfirst as [Hsat _].
  - intros Hfound. unfold guess_intent. cbv zeta. by rewrite Hfound.
Qed.

(** *** What the extractors return *)

Lemma sem_lang r prev w rest : sem r prev w rest → lang r w.
Proof.
  revert prev w rest.
  induction r as [| |p| |r1 IH1 r2 IH2|r1 IH1 r2 IH2|r1 IH1|p lo hi];
    intros prev w rest; simpl; try done.
  - by intros [-> _].
  - intros (w1 & w2 & -> & H1 & H2). exists w1, w2. eauto.
  - intros [?|?]; eauto.
  - intros [?|?]; eauto.
Qed.

Lemma lang_chars (f : N → N → bool) (w m : str) :
  lang (cats (Chr ∘ f <$> w)) m → Forall2 (λ x c, f x c = true) w m.
Proof.
  revert m. induction w as [|x w IH]; intros m; simpl.
  - intros ->. constructor.
  - intros (w1 & w2 & -> & (c & -> & Hc) & Hw). constructor; [done | by apply IH].
Qed.

Lemma lang_cats_nonempty (rs : list regex) (r : regex) (m : str) :
  r ∈ rs → (∀ w, lang r w → w ≠ []) → lang (cats rs) m → m ≠ [].
Proof.
  intros Hin Hr. revert m. induction rs as [|r' rs IH]; intros m.
  { by apply elem_of_nil in Hin. }
  simpl. intros (w1 & w2 & -> & H1 & H2).
  apply elem_of_cons in Hin as [<-|Hin].
  - apply Hr in H1. by destruct w1.
  - apply (IH Hin) in H2. by destruct w1, w2.
Qed.

Lemma lang_digits_nonempty (lo hi : nat) (w : str) :
  (1 ≤ lo)%nat → lang (digits lo hi) w → w ≠ [].
Proof. intros Hlo (Hlen & _). intros ->. simpl in Hlen. lia. Qed.

(** A match of [DATE_PATTERN] is never empty. *)
Lemma date_match_nonempty (d : str) : lang DATE_PATTERN d → d ≠ [].
Proof.
  intros (r & Hr & Hlang)%lang_whole_word.
  rewrite !elem_of_cons, elem_of_nil in Hr. destruct Hr as [->|[->|[->|[]]]].
  - revert Hlang. apply (lang_cats_nonempty _ (digits 4 4)); [left|].
    intros w. apply lang_digits_nonempty. lia.
  - revert Hlang. apply (lang_cats_nonempty _ (digits 1 2)); [left|].
    intros w. apply lang_digits_nonempty. lia.
  - revert Hlang. apply (lang_cats_nonempty _ (digits 1 2)); [do 3 right; left|].
    intros w. apply lang_digits_nonempty. lia.
Qed.

Lemma date_words_nonempty (w : str) : w ∈ DATE_WORDS → w ≠ [].
Proof. intros Hw ->. refuted Hw. Qed.

Lemma extract_date_nonempty (text : str) :
  match extract_date text with
  | Some d => d ≠ []
  | None => True
  end.
Proof.
  unfold extract_date.
  destruct (search DATE_PATTERN text) as [d|] eqn:Hd.
  - apply search_lang in Hd as [Hd _]. by apply date_match_nonempty.
  - destruct (List.find _ DATE_WORDS) as [w|] eqn:Hw; [|done].
    apply find_first in Hw as (i & Hi & _). apply date_words_nonempty.
    by apply list_elem_of_lookup_2 in Hi.
Qed.

Lemma dates_nonempty (text : str) :
  Forall (λ d, d ≠ []) (finditer DATE_PATTERN text).
Proof.
  apply Forall_forall. intros d (pre & post & _ & Hsem)%finditer_sem.
  by apply sem_lang, date_match_nonempty in Hsem.
Qed.

(** A match of [CITY_PATTERN] spells one of the ten names, letter by
    letter, case ignored. *)
Lemma city_match (m : str) :
  lang CITY_PATTERN m →
  ∃ w, w ∈ CITY_NAMES ∧ Forall2 (λ x c, ignoring_case x c = true) (py w) m.
Proof.
  intros (r & (w & -> & Hw)%list_elem_of_fmap & Hlang)%lang_whole_word.
  exists w. split; [done|]. by apply lang_chars.
Qed.

Lemma city_match_nonempty (m : str) : lang CITY_PATTERN m → m ≠ [].
Proof.
  intros (w & Hw & Hall)%city_match ->. apply Forall2_nil_inv_r in Hall.
  unfold CITY_NAMES in Hw. rewrite !elem_of_cons, elem_of_nil in Hw.
  repeat (destruct Hw as [->|Hw]; [by vm_compute in Hall|]). done.
Qed.

Lemma lower_nonempty (s : str) : lower_deletes_nothing → s ≠ [] → lower s ≠ [].
Proof.
  intros HU. unfold lower. destruct s as [|c s]; [done|]. intros _. simpl.
  destruct (is_ascii c); [done|].
  specialize (HU [] c s). by destruct (u_lower U [] c s).
Qed.

Lemma cities_nonempty (text : str) :
  lower_deletes_nothing → Forall (λ c, c ≠ []) (extract_cities text).
Proof.
  intros HU. apply Forall_forall. intros c (m & -> & Hm)%list_elem_of_fmap.
  apply lower_nonempty; [done|].
  apply finditer_sem in Hm as (pre & post & _ & Hsem).
  by apply sem_lang, city_match_nonempty in Hsem.
Qed.

(** X3.  The intent does not depend on the case of the utterance: two
    utterances whose stripped texts lowercase to the same string get
    the same intent, confidence and follow-up.  (The slots can differ:
    a booking identifier is looked for in the text as written.) *)
Theorem intent_ignores_case (m1 m2 : str) (r1 r2 : ChatResponse) :
  lower (strip m1) = lower (strip m2) →
  guess_intent m1 = Ok r1 → guess_intent m2 = Ok r2 →
  intent r1 = intent r2 ∧ confidence r1 = confidence r2
  ∧ follow_up r1 = follow_up r2.
Proof.
  intros Hlow H1 H2.
  destruct (guess_intent_shape m1) as (ρ1 & sl1 & rep1 & Hf1 & Hg1 & _).
  destruct (guess_intent_shape m2) as (ρ2 & sl2 & rep2 & Hf2 & Hg2 & _).
  rewrite Hg1 in H1. rewrite Hg2 in H2. injection H1 as <-. injection H2 as <-.
  rewrite Hlow, Hf2 in Hf1. by injection Hf1 as ->.
Qed.

(** X4.  In a book_hotel response check_in is always the result of
    [extract_date]: the first of two structural dates is the date
    [extract_date] had found already.  check_out is the second match of
    the date pattern, or null, so it is never set without check_in. *)
Theorem check_in_is_the_extracted_date (msg : str) (r : ChatResponse) :
  guess_intent msg = Ok r → intent r = py "book_hotel" →
  slots r !! py "check_in" = Some (extract_date (strip msg))
  ∧ slots r !! py "check_out" = Some (finditer DATE_PATTERN (strip msg) !! 1%nat)
  ∧ (slots r !! py "check_out" ≠ Some None →
     slots r !! py "check_in" ≠ Some None).
Proof.
  intros Hr Hname.
  apply (classified_as msg r BookHotel) in Hr as [_ Hh]; [|done].
  simpl in Hh. destruct (book_hotel_shape (strip msg)) as [rep Hshape].
  rewrite Hshape in Hh. injection Hh as <-. cbn [slots response].
  pose proof (finditer_head DATE_PATTERN (strip msg)) as Hhead.
  unfold stay_dates, extract_date.
  destruct (finditer DATE_PATTERN (strip msg)) as [|d0 [|d1 ds]];
    simpl in Hhead; rewrite <- Hhead; done.
Qed.

(** X5.  [extract_date] never returns the empty string.  A structural
    date is returned as it is written in the text; a date word is
    returned in lower case, as it stands in [DATE_WORDS], and only when
    the text has no structural date.  It returns null exactly when the
    text has neither. *)
Theorem extract_date_result (text : str) :
  match extract_date text with
  | Some d =>
      d ≠ []
      ∧ ((search DATE_PATTERN text = Some d ∧ substring d text)
         ∨ (search DATE_PATTERN text = None ∧ d ∈ DATE_WORDS
            ∧ substring d (lower text)))
  | None =>
      search DATE_PATTERN text = None
      ∧ ∀ w, w ∈ DATE_WORDS → ¬ substring w (lower text)
  end.
Proof.
  pose proof (extract_date_nonempty text) as Hne. unfold extract_date in *.
  destruct (search DATE_PATTERN text) as [d|] eqn:Hd.
  - split; [done|]. left. split; [done|]. by apply search_lang in Hd as [_ ?].
  - destruct (List.find _ DATE_WORDS) as [w|] eqn:Hw.
    + split; [done|]. right. split; [done|].
      apply find_first in Hw as (i & Hi & Hc%contains_spec & _).
      split; [|done]. by apply list_elem_of_lookup_2 in Hi.
    + split; [done|]. intros w Hin Hsub%contains_spec.
      by rewrite (find_nothing _ _ Hw w Hin) in Hsub.
Qed.

(** *** The replies *)

Lemma cancel_booking_full (text : str) :
  cancel_booking text =
    Ok (response CancelBooking
          (match search BOOKING_ID_PATTERN text with
           | Some m => {[ py "booking_id" := Some m ]}
           | None => ∅
           end)
          (cancel_reply (search BOOKING_ID_PATTERN text))).
Proof.
  unfold cancel_booking.
  destruct (search BOOKING_ID_PATTERN text) as [m|] eqn:Hm; [|done].
  by rewrite (booking_id_truthy _ _ Hm).
Qed.

Lemma book_hotel_full (text : str) :
  book_hotel text =
    Ok (response BookHotel
          {[ py "location" := head (extract_cities text);
             py "check_in" := (stay_dates text).1;
             py "check_out" := (stay_dates text).2 ]}
          (hotel_reply (head (extract_cities text)) (stay_dates text).1
                       (stay_dates text).2)).
Proof.
  pose proof (dates_nonempty text) as Hd.
  pose proof (extract_date_nonempty text) as He.
  unfold book_hotel, stay_dates.
  destruct (finditer DATE_PATTERN text) as [|d0 [|d1 ds]];
    destruct (extract_cities text) as [|c cs];
    destruct (extract_date text) as [d|];
    nonempty_strings; reflexivity.
Qed.

Lemma weather_full (text : str) :
  weather text =
    Ok (response Weather
          {[ py "location" := head (extract_cities text);
             py "date" := extract_date text ]}
          (weather_reply (head (extract_cities text)) (extract_date text))).
Proof.
  pose proof (extract_date_nonempty text) as He.
  unfold weather.
  destruct (extract_cities text) as [|c cs];
    destruct (extract_date text) as [d|];
    nonempty_strings; reflexivity.
Qed.

Lemma search_flights_full (text low : str) :
  lower_deletes_nothing →
  search_flights text low =
    Ok (response SearchFlights
          {[ py "from" := (route (extract_cities text) low).1;
             py "to" := (route (extract_cities text) low).2;
             py "date" := extract_date text ]}
          (flight_reply (route (extract_cities text) low).1
                        (route (extract_cities text) low).2
                        (extract_date text))).
Proof.
  intros HU.
  pose proof (cities_nonempty text HU) as Hc.
  pose proof (extract_date_nonempty text) as He.
  unfold search_flights, route.
  destruct (extract_cities text) as [|c0 [|c1 cs]];
    destruct (extract_date text) as [d|];
    destruct (contains (py "from") low), (contains (py "to") low);
    nonempty_strings; reflexivity.
Qed.

(** X6.  The reply of a cancel_booking response is decided by its
    booking_id slot: with an identifier it is "Okay, I can cancel
    booking <id>. Do you want me to proceed?", without the slot it is
    "I can help cancel that. What's the booking ID?". *)
Theorem cancel_booking_reply (msg : str) (r : ChatResponse) :
  guess_intent msg = Ok r → intent r = py "cancel_booking" →
  match slots r !! py "booking_id" with
  | Some (Some bid) =>
      reply r = py "Okay, I can cancel booking " ++ bid
                  ++ py ". Do you want me to proceed?"
  | Some None => False
  | None => reply r = py "I can help cancel that. What's the booking ID?"
  end.
Proof.
  intros Hr Hname.
  apply (classified_as msg r CancelBooking) in Hr as [_ Hh]; [|done].
  simpl in Hh. rewrite cancel_booking_full in Hh. injection Hh as <-.
  cbn [slots reply response].
  by destruct (search BOOKING_ID_PATTERN (strip msg)) as [m|].
Qed.

(** X7.  The reply of a book_hotel response is decided by its three
    slots.  With a location and both dates it confirms the search,
    naming the city in title case and the two dates; with a location
    and a check-in only it asks for the check-out date; with a location
    only it asks for dates; without a location it asks for city and
    dates, even when dates were found. *)
Theorem book_hotel_reply (msg : str) (r : ChatResponse) :
  guess_intent msg = Ok r → intent r = py "book_hotel" →
  ∃ loc check_in check_out : option str,
    slots r = {[ py "location" := loc; py "check_in" := check_in;
                 py "check_out" := check_out ]}
    ∧ reply r =
        match loc, check_in, check_out with
        | Some c, Some d1, Some d2 =>
            py "Got it. Searching hotels in " ++ title c ++ py " from " ++ d1
              ++ py " to " ++ d2 ++ py "..."
        | Some c, Some d1, None =>
            py "Great. What's your check-out date for " ++ title c
              ++ py " after " ++ d1 ++ py "?"
        | Some c, None, _ =>
            py "Great. What dates would you like in " ++ title c ++ py "?"
        | None, _, _ => py "Sure, what city and dates are you looking at?"
        end.
Proof.
  intros Hr Hname.
  apply (classified_as msg r BookHotel) in Hr as [_ Hh]; [|done].
  simpl in Hh. rewrite book_hotel_full in Hh. injection Hh as <-.
  by eexists _, _, _.
Qed.

(** X8.  The reply of a weather response is the sample forecast, naming
    the city in title case and the date, exactly when both of its slots
    are set; otherwise it asks for city and date. *)
Theorem weather_reply_by_slots (msg : str) (r : ChatResponse) :
  guess_intent msg = Ok r → intent r = py "weather" →
  ∃ loc date : option str,
    slots r = {[ py "location" := loc; py "date" := date ]}
    ∧ reply r =
        match loc, date with
        | Some c, Some d =>
            py "Forecast for " ++ title c ++ py " on " ++ d ++ py ": 23" ++ [176]
              ++ py "C, partly cloudy (sample)."
        | _, _ => py "I can get the forecast. Which city and date?"
        end.
Proof.
  intros Hr Hname.
  apply (classified_as msg r Weather) in Hr as [_ Hh]; [|done].
  simpl in Hh. rewrite weather_full in Hh. injection Hh as <-.
  by eexists _, _.
Qed.

(** X9.  Provided lowercasing deletes no code point, the reply of a
    search_flights response is decided by its three slots: "Got it."
    followed by "from <City>", "to <City>" and "on <date>" for the slots
    that are set, in this order, separated by spaces and closed by
    "..."; when none is set, the question for origin, destination and
    date. *)
Theorem search_flights_reply (msg : str) (r : ChatResponse) :
  lower_deletes_nothing →
  guess_intent msg = Ok r → intent r = py "search_flights" →
  ∃ origin destination date : option str,
    slots r = {[ py "from" := origin; py "to" := destination; py "date" := date ]}
    ∧ reply r =
        match flight_part "from " title origin
              ++ flight_part "to " title destination
              ++ flight_part "on " id date with
        | [] => py "Sure " ++ [8212] ++ py " what's your origin, destination, and date?"
        | parts => join (py " ") (py "Got it." :: parts) ++ py "..."
        end.
Proof.
  intros HU Hr Hname.
  apply (classified_as msg r SearchFlights) in Hr as [_ Hh]; [|done].
  simpl in Hh. rewrite search_flights_full in Hh by done. injection Hh as <-.
  by eexists _, _, _.
Qed.

(** *** Cities *)

Lemma lower_from_ascii (before s : str) :
  Forall (λ c, is_ascii c = true) s → lower_from before s = ascii_tolower <$> s.
Proof.
  intros Hs. revert before. induction Hs as [|c s Hc _ IH]; intros before; [done|].
  simpl. by rewrite Hc, IH.
Qed.

Lemma ignoring_case_ascii (x c : N) :
  is_ascii c = true → ascii_tolower x = x → ignoring_case x c = true →
  ascii_tolower c = x.
Proof.
  unfold ignoring_case. intros -> Hx.
  destruct (ascii_isalpha x).
  - rewrite Hx. by intros ?%N.eqb_eq.
  - by intros ->%N.eqb_eq.
Qed.

Lemma spelling_ascii (w m : str) :
  Forall (λ c, is_ascii c = true) m → Forall (λ x, ascii_tolower x = x) w →
  Forall2 (λ x c, ignoring_case x c = true) w m → ascii_tolower <$> m = w.
Proof.
  intros Hm Hw Hall. induction Hall as [|x c w m Hxc _ IH]; [done|].
  apply Forall_cons in Hm as [Hc Hm]. apply Forall_cons in Hw as [Hx Hw].
  simpl. f_equal; [by apply ignoring_case_ascii | by apply IH].
Qed.

Lemma city_names_lowercase (w : string) :
  w ∈ CITY_NAMES → Forall (λ x, ascii_tolower x = x) (py w).
Proof.
  unfold CITY_NAMES. rewrite !elem_of_cons, elem_of_nil. intros Hw.
  repeat (destruct Hw as [->|Hw]; [by repeat constructor|]). done.
Qed.

(** X10.  In a text of ASCII characters, every city that
    [extract_cities] returns is one of the ten names of the pattern, in
    lower case, however the text spells it. *)
Theorem extract_cities_known_names (text : str) :
  Forall (λ c, is_ascii c = true) text →
  Forall (λ c, c ∈ py <$> CITY_NAMES) (extract_cities text).
Proof.
  intros Htext. apply Forall_forall. intros c (m & -> & Hm)%list_elem_of_fmap.
  apply finditer_sem in Hm as (pre & post & -> & Hsem).
  apply Forall_app in Htext as [_ [Hm _]%Forall_app].
  apply sem_lang, city_match in Hsem as (w & Hw & Hall).
  unfold lower. rewrite lower_from_ascii by done.
  rewrite (spelling_ascii (py w) m); [by apply list_elem_of_fmap_2 | done | | done].
  by apply city_names_lowercase.
Qed.

Lemma finditer_from_skip r skip prev s :
  (skip ≤ length s)%nat →
  finditer_from r skip prev s
  = finditer_from r O (last_of prev (take skip s)) (drop skip s).
Proof.
  revert skip prev. induction s as [|c s IH]; intros [|k] prev Hk; try done.
  - simpl in Hk. lia.
  - simpl in Hk. cbn [take drop]. rewrite last_of_cons.
    change (finditer_from r (S k) prev (c :: s))
      with (finditer_from r k (Some c) s).
    apply IH. lia.
Qed.

Lemma scan_cons P prev c s ms :
  (∀ m post, c :: s = m ++ post → ¬ P prev m post) →
  scan P (Some c) s ms → scan P prev (c :: s) ms.
Proof.
  intros Hnone Hscan.
  inversion Hscan as [prev' s' Hno | prev' gap m rest ms' Hm Hne Hleft Htail];
    subst.
  - apply scan_done. intros [|c' pre] m post Hs.
    + rewrite last_of_nil. by apply Hnone.
    + simpl in Hs. injection Hs as <- ->. rewrite last_of_cons. by apply Hno.
  - change (c :: gap ++ m ++ rest) with ((c :: gap) ++ m ++ rest).
    apply scan_match.
    + by rewrite last_of_cons.
    + done.
    + intros [|c' pre'] m' post' Hs Hm'.
      * rewrite last_of_nil in Hm'. by destruct (Hnone m' post').
      * simpl in Hs. injection Hs as <- Hs. rewrite last_of_cons in Hm'.
        specialize (Hleft _ _ _ Hs Hm'). simpl. lia.
    + by rewrite <- app_comm_cons, last_of_cons.
Qed.

Lemma scan_ext (P Q : option N → str → str → Prop) prev s ms :
  (∀ prev m rest, P prev m rest ↔ Q prev m rest) →
  scan P prev s ms → scan Q prev s ms.
Proof.
  intros HPQ. induction 1 as [prev s Hno | prev gap m rest ms Hm Hne Hleft _ IH].
  - apply scan_done. intros pre m post Hs HQ. by apply (Hno pre m post), HPQ.
  - apply scan_match; [by apply HPQ | done | | done].
    intros pre' m' post' Hs HQ. by apply (Hleft pre' m' post'), HPQ.
Qed.

(** The matches of a pattern that never matches the empty string, as
    [finditer] yields them. *)
Lemma finditer_from_scan r :
  (∀ prev m rest, sem r prev m rest → m ≠ []) →
  ∀ prev s, scan (sem r) prev s (finditer_from r O prev s).
Proof.
  intros Hne prev s.
  remember (length s) as n eqn:Hn. revert prev s Hn.
  induction n as [n IH] using lt_wf_ind. intros prev s ->.
  destruct s as [|c s].
  - simpl. destruct (ends r prev []) as [|e es] eqn:He.
    + apply scan_done. intros pre m post Hs.
      symmetry in Hs. apply app_eq_nil in Hs as [-> [-> ->]%app_eq_nil].
      rewrite last_of_nil. by apply (ends_none r prev [] He [] []).
    + assert (Hin : e ∈ ends r prev []) by (rewrite He; left).
      apply ends_matched in Hin as [Hs Hsem]. apply Hne in Hsem.
      by destruct (matched [] e).
  - simpl. destruct (ends r prev (c :: s)) as [|e es] eqn:He.
    + apply scan_cons; [intros m post Hs; by apply (ends_none r prev (c :: s) He)|].
      apply (IH (length s)); [simpl; lia | done].
    + assert (Hin : e ∈ ends r prev (c :: s)) by (rewrite He; left).
      destruct (ends_matched _ _ _ _ Hin) as [Hs Hsem].
      destruct (advances (c :: s) e) eqn:Hadv.
      * destruct (advancing_end r prev c s e Hin Hadv) as [Hle Hcs].
        rewrite (finditer_from_skip r _ (Some c) s Hle).
        pose proof (Hne _ _ _ Hsem) as Hm.
        assert (Hrest : e.2 = drop (pred (length (matched (c :: s) e))) s).
        { apply (app_inv_head (matched (c :: s) e)). by rewrite <- Hs, <- Hcs. }
        assert (Hlast : last_of (Some c)
                          (take (pred (length (matched (c :: s) e))) s)
                        = last_of prev (matched (c :: s) e)).
        { destruct (matched (c :: s) e) as [|d m'] eqn:Hmm; [done|].
          simpl in Hs. injection Hs as <- Hs'. simpl.
          rewrite last_of_cons. f_equal. by rewrite Hs', take_app_length. }
        assert (Hlen : (length e.2 < length (c :: s))%nat).
        { pose proof (f_equal length Hs) as Hl. rewrite length_app in Hl.
          destruct (matched (c :: s) e); [done | simpl in Hl |- *; lia]. }
        rewrite Hlast, <- Hrest.
        set (m := matched (c :: s) e) in *. rewrite Hs.
        apply (scan_match (sem r) prev [] m e.2).
        -- exact Hsem.
        -- exact Hm.
        -- intros pre' m' post' _ _. simpl. lia.
        -- by apply (IH (length e.2)).
      * apply standing_end in Hadv. by apply Hne in Hsem.
Qed.

Lemma sem_chars (f : N → N → bool) (w : str) prev m rest :
  sem (cats (Chr ∘ f <$> w)) prev m rest ↔ Forall2 (λ x c, f x c = true) w m.
Proof.
  revert prev m. induction w as [|x w IH]; intros prev m; simpl.
  - split; [intros ->; constructor | by intros ->%Forall2_nil_inv_l].
  - split.
    + intros (w1 & w2 & -> & (c & -> & Hc) & Hw%IH). by constructor.
    + intros (c & m' & Hc & Hw & ->)%Forall2_cons_inv_l.
      exists [c], m'. split; [done|]. split; [by exists c | by apply IH].
Qed.

Lemma sem_city prev m rest :
  sem CITY_PATTERN prev m rest ↔ city_occurrence prev m rest.
Proof.
  unfold CITY_PATTERN, city_occurrence. rewrite sem_whole_word. split.
  - intros (Hb1 & Hb2 & r & (w & -> & Hw)%list_elem_of_fmap & Hsem).
    split; [|done]. exists w. split; [done|]. by apply sem_chars in Hsem.
  - intros [(w & Hw & Hspell) [Hb1 Hb2]]. split; [done|]. split; [done|].
    exists (lit_i w). split; [by apply list_elem_of_fmap_2 | by apply sem_chars].
Qed.

Lemma city_occurrence_nonempty prev m rest : city_occurrence prev m rest → m ≠ [].
Proof. intros Hm%sem_city. by apply sem_lang, city_match_nonempty in Hm. Qed.

Lemma finditer_cities (text : str) :
  scan city_occurrence None text (finditer CITY_PATTERN text).
Proof.
  apply (scan_ext (sem CITY_PATTERN)); [apply sem_city|].
  apply finditer_from_scan. intros prev m rest Hm.
  by apply sem_lang, city_match_nonempty in Hm.
Qed.


Lemma city_names_prefix_free (w w' : string) :
  w ∈ CITY_NAMES → w' ∈ CITY_NAMES → py w `prefix_of` py w' → w = w'.
Proof.
  unfold CITY_NAMES. rewrite !elem_of_cons, !elem_of_nil. intros Hw Hw' Hp.
  repeat (destruct Hw as [-> | Hw]);
    repeat (destruct Hw' as [-> | Hw']);
    first [done | refuted Hp].
Qed.

(** In a text of ASCII code points, at most one city occurrence starts
    at a place. *)
Lemma city_occurrence_det prev m m' rest rest' :
  Forall (λ c, is_ascii c = true) (m ++ rest) →
  m ++ rest = m' ++ rest' →
  city_occurrence prev m rest → city_occurrence prev m' rest' → m = m'.
Proof.
  intros Hascii Hs [(w & Hw & Hsp) _] [(w' & Hw' & Hsp') _].
  assert (Hm : Forall (λ c, is_ascii c = true) m)
    by (by apply Forall_app in Hascii as [? _]).
  assert (Hm' : Forall (λ c, is_ascii c = true) m')
    by (rewrite Hs in Hascii; by apply Forall_app in Hascii as [? _]).
  apply spelling_ascii in Hsp; [|done | by apply city_names_lowercase].
  apply spelling_ascii in Hsp'; [|done | by apply city_names_lowercase].
  assert (Hlen : ∀ k, length (m ++ k) = length m → m ++ k = m).
  { intros k. rewrite length_app. destruct k; [by rewrite app_nil_r | simpl; lia]. }
  apply app_eq_inv in Hs as [(k & -> & _)|(k & -> & _)].
  - rewrite fmap_app, Hsp' in Hsp.
    assert (w' = w) as -> by (apply city_names_prefix_free; [done..|by eexists]).
    apply (f_equal length) in Hsp. rewrite length_app, !length_fmap in Hsp.
    destruct k; [by rewrite app_nil_r | simpl in Hsp; lia].
  - rewrite fmap_app, Hsp in Hsp'.
    assert (w = w') as -> by (apply city_names_prefix_free; [done..|by eexists]).
    apply (f_equal length) in Hsp'. rewrite length_app, !length_fmap in Hsp'.
    destruct k; [by rewrite app_nil_r | simpl in Hsp'; lia].
Qed.

Lemma scan_cities_det prev s ms ms' :
  Forall (λ c, is_ascii c = true) s →
  scan city_occurrence prev s ms → scan city_occurrence prev s ms' → ms = ms'.
Proof.
  intros Hascii Hscan. revert Hascii ms'.
  induction Hscan as [prev s Hno | prev gap m rest ms Hm Hne Hleft Htail IH];
    intros Hascii ms' Hscan'.
  - inversion Hscan' as [|prev' gap' m' rest' ms'' Hm' Hne' Hleft' Htail'];
      subst; [done|].
    by destruct (Hno gap' m' rest').
  - inversion Hscan'
      as [prev' s' Hno' | prev' gap' m' rest' ms'' Hm' Hne' Hleft' Htail' E1 E2 E3].
    + subst. by destruct (Hno' gap m rest).
    + assert (Hlen : length gap' = length gap).
      { apply Nat.le_antisymm;
          [by apply (Hleft' gap m rest) | by apply (Hleft gap' m' rest')]. }
      apply app_inj_1 in E2 as [-> E2]; [|done].
      assert (m' = m) as ->.
      { apply (city_occurrence_det (last_of prev gap) m' m rest' rest); [|done..].
        rewrite E2. by apply Forall_app in Hascii as [_ ?]. }
      apply app_inv_head in E2 as ->. f_equal. apply IH; [|done].
      by apply Forall_app in Hascii as [_ [_ ?]%Forall_app].
Qed.


(** X11.  [extract_cities] returns, lowercased and in text order, every
    whole-word occurrence of a city name that a scan of the text from
    left to right meets: each returned stretch spells one of the ten
    names, case ignored, with [\b] at both ends; it starts at the first
    place after the one before where such an occurrence starts at all;
    after the last one the text has none left.  So the stretches stand
    in the text as gap, match, gap, ..., gap, without overlap, and no
    occurrence in a gap is passed over.  In a text of ASCII code points
    the list is the only one of that kind.
    "Paris, parisian NYC to New York" gives paris, nyc, new york. *)
Theorem extract_cities_in_text_order :
  (∀ text : str,
     ∃ ms : list str,
       extract_cities text = lower <$> ms
       ∧ scan city_occurrence None text ms
       ∧ (∃ gaps, length gaps = S (length ms) ∧ text = weave gaps ms)
       ∧ Forall (λ m, ∃ w, w ∈ CITY_NAMES
                           ∧ Forall2 (λ x c, ignoring_case x c = true) (py w) m) ms
       ∧ (Forall (λ c, is_ascii c = true) text →
          ∀ ms', scan city_occurrence None text ms' → ms' = ms))
  ∧ extract_cities (py "Paris, parisian NYC to New York")
    = [py "paris"; py "nyc"; py "new york"].
Proof.
  split; [|vm_compute; reflexivity].
  intros text. exists (finditer CITY_PATTERN text).
  split; [done|]. split; [apply finditer_cities|].
  split; [apply finditer_weave|]. split.
  - apply Forall_forall. intros m (pre & post & _ & Hsem)%finditer_sem.
    by apply sem_lang, city_match in Hsem.
  - intros Hascii ms' Hscan.
    apply (scan_cities_det None text); [done.. | apply finditer_cities].
Qed.

(** *** Dates of a stay *)

(** X12.  When a book_hotel response has both dates, they are two
    stretches of the stripped utterance that do not overlap, check_in
    standing before check_out. *)
Theorem check_out_follows_check_in (msg : str) (r : ChatResponse) (d1 d2 : str) :
  guess_intent msg = Ok r → intent r = py "book_hotel" →
  slots r !! py "check_in" = Some (Some d1) →
  slots r !! py "check_out" = Some (Some d2) →
  ∃ a b c, strip msg = a ++ d1 ++ b ++ d2 ++ c.
Proof.
  intros Hr Hname.
  apply (classified_as msg r BookHotel) in Hr as [_ Hh]; [|done].
  simpl in Hh. destruct (book_hotel_shape (strip msg)) as [rep Hshape].
  rewrite Hshape in Hh. injection Hh as <-. cbn [slots response].
  destruct (finditer_weave DATE_PATTERN (strip msg)) as (gaps & Hlen & Htext).
  unfold stay_dates.
  destruct (finditer DATE_PATTERN (strip msg)) as [|d0 [|d1' ds]];
    [intros _ H2; by pose proof (H2 : Some None = Some (Some d2)) as E2 ..|].
  intros H1 H2.
  pose proof (H1 : Some (Some d0) = Some (Some d1)) as E1.
  pose proof (H2 : Some (Some d1') = Some (Some d2)) as E2.
  injection E1 as ->. injection E2 as ->.
  destruct gaps as [|g0 [|g1 [|g2 gaps]]]; simpl in Hlen; [lia..|].
  exists g0, g1, (weave (g2 :: gaps) ds). by rewrite Htext.
Qed.

(** *** Booking identifiers *)

Lemma upper_or_digit_word (c : N) : upper_or_digit c = true → is_word c = true.
Proof.
  unfold upper_or_digit, is_word, is_ascii, ascii_isalpha. intros H.
  assert ((c <? 128) = true) as ->.
  { apply N.ltb_lt. unfold ascii_isupper, ascii_isdigit, between in H.
    apply orb_true_iff in H as [[_ H%N.leb_le]%andb_true_iff|[_ H%N.leb_le]%andb_true_iff];
      lia. }
  destruct (ascii_isupper c), (ascii_isdigit c); simpl in *; try done.
  by rewrite orb_true_r.
Qed.

Lemma booking_token_word (m : str) :
  booking_token m →
  from_option is_word false (head m) = true
  ∧ from_option is_word false (last m) = true.
Proof.
  intros [[Hlen _] Hall]. split.
  - destruct Hall as [|c m Hc _]; [simpl in Hlen; lia|].
    by apply upper_or_digit_word.
  - destruct (last m) as [c|] eqn:Hl.
    + apply upper_or_digit_word.
      by apply (proj1 (Forall_forall _ _) Hall), last_Some_elem_of.
    + apply last_None in Hl as ->. simpl in Hlen. lia.
Qed.

Lemma sem_booking_id prev m rest :
  sem BOOKING_ID_PATTERN prev m rest ↔
  booking_token m ∧ no_word prev ∧ no_word (head rest).
Proof.
  unfold BOOKING_ID_PATTERN, cats. cbn [foldr sem]. split.
  - intros (w1 & w2 & -> & [-> Hb1] & w3 & w4 & -> & Hrep & w5 & w6 & -> & [-> Hb2] & ->).
    rewrite last_of_nil in *. simpl in *. rewrite app_nil_r in *.
    assert (booking_token w3) as Htok by (destruct Hrep as (? & ? & ?); by split).
    destruct (booking_token_word w3 Htok) as [Hh Hl].
    apply boundary_before in Hb1; [|done]. by apply boundary_after in Hb2.
  - intros (Htok & Hb1 & Hb2).
    destruct (booking_token_word m Htok) as [Hh Hl].
    exists [], m. rewrite last_of_nil. simpl. split; [done|].
    split; [split; [done | by apply boundary_before]|].
    exists m, []. rewrite app_nil_r. simpl. split; [done|].
    split; [by destruct Htok as [[??] ?]|].
    exists [], []. repeat split. by apply boundary_after.
Qed.

(** X13.  The booking_id of a cancel_booking response is the leftmost
    whole token of the stripped utterance made of five to eight
    upper-case letters or digits: it stands there with no word
    character directly before or after, and no such token starts
    before it.  The response has no booking_id exactly when the
    utterance has no such token; a longer run of letters and digits
    does not count. *)
Theorem booking_id_is_the_first_token (msg : str) (r : ChatResponse) :
  guess_intent msg = Ok r → intent r = py "cancel_booking" →
  match slots r !! py "booking_id" with
  | Some (Some bid) =>
      booking_token bid
      ∧ ∃ pre post,
          strip msg = pre ++ bid ++ post
          ∧ no_word (last pre) ∧ no_word (head post)
          ∧ ∀ pre' m' post',
              strip msg = pre' ++ m' ++ post' → booking_token m' →
              no_word (last pre') → no_word (head post') →
              (length pre ≤ length pre')%nat
  | Some None => False
  | None => ∀ m, booking_token m → ¬ occurs_as_word m (strip msg)
  end.
Proof.
  intros Hr Hname.
  apply (classified_as msg r CancelBooking) in Hr as [_ Hh]; [|done].
  simpl in Hh. rewrite cancel_booking_full in Hh. injection Hh as <-.
  cbn [slots response]. unfold search.
  destruct (search_from BOOKING_ID_PATTERN None (strip msg)) as [m|] eqn:Hm.
  - rewrite lookup_singleton_eq.
    apply search_from_Some in Hm as (pre & post & Hs & Hsem & Hleft).
    rewrite last_of_None in Hsem. apply sem_booking_id in Hsem as (Htok & Hb1 & Hb2).
    split; [done|]. exists pre, post. repeat split; [done..|].
    intros pre' m' post' Hs' Htok' Hb1' Hb2'. apply (Hleft pre' m' post' Hs').
    rewrite last_of_None. by apply sem_booking_id.
  - rewrite lookup_empty. intros m Htok (pre & post & Hs & Hb1 & Hb2).
    apply (proj1 (search_from_None _ _ _) Hm pre m post Hs).
    rewrite last_of_None. by apply sem_booking_id.
Qed.

(** *** The catalog against the classifier *)

(** X14.  Every intent [guess_intent] returns is listed in [INTENTS],
    except fallback, which the catalog does not have; and the slots of
    a response are the required slots that the catalog lists for its
    intent, except that a cancel_booking response without an identifier
    has no slot at all. *)
Theorem catalog_lists_the_slots (msg : str) :
  ∃ r, guess_intent msg = Ok r
    ∧ ((intent r = py "fallback" ∧ Forall (λ d, name d ≠ py "fallback") INTENTS)
       ∨ ∃ d, d ∈ INTENTS ∧ name d = intent r
              ∧ (dom (slots r) = list_to_set (required_slots d)
                 ∨ (intent r = py "cancel_booking" ∧ slots r = ∅))).
Proof.
  destruct (guess_intent_dispatch msg) as (ρ & _ & ->).
  destruct ρ; cbn [handler].
  - eexists. split; [done|]. right. catalog_entry 0%nat. by left.
  - eexists. split; [done|]. right. catalog_entry 5%nat. by left.
  - eexists. split; [done|]. right. catalog_entry 6%nat. by left.
  - rewrite cancel_booking_full. eexists. split; [done|]. right.
    catalog_entry 3%nat. cbn [slots response].
    destruct (search BOOKING_ID_PATTERN (strip msg)); [left | by right].
    rewrite dom_singleton_L. simpl. set_solver.
  - rewrite book_hotel_full. eexists. split; [done|]. right.
    catalog_entry 2%nat. left. cbn [slots response].
    rewrite !dom_insert_L, dom_singleton_L. simpl. set_solver.
  - destruct (search_flights_shape (strip msg) (lower (strip msg))) as [rep ->].
    eexists. split; [done|]. right.
    catalog_entry 1%nat. left. cbn [slots response].
    rewrite !dom_insert_L, dom_singleton_L. simpl. set_solver.
  - rewrite weather_full. eexists. split; [done|]. right.
    catalog_entry 4%nat. left. cbn [slots response].
    rewrite !dom_insert_L, dom_singleton_L. simpl. set_solver.
  - eexists. split; [done|]. left. split; [done|].
    repeat constructor; intros H; by vm_compute in H.
Qed.

(** X15.  Every sample utterance of the catalog is classified under the
    intent it is listed for, with one exception: "Need a hotel in Tokyo
    next weekend", listed for book_hotel, has none of the words book,
    reserve, find and is answered fallback. *)
Theorem catalog_samples :
  Forall (λ d,
    Forall (λ u, u = py "Need a hotel in Tokyo next weekend"
                 ∨ intent <$> guess_intent u = Ok (name d))
           (sample_utterances d)) INTENTS
  ∧ intent <$> guess_intent (py "Need a hotel in Tokyo next weekend")
    = Ok (py "fallback")
  ∧ satisfied (lower (strip (py "Need a hotel in Tokyo next weekend"))) BookHotel
    = false.
Proof.
  split; [|split; vm_compute; reflexivity].
  unfold INTENTS.
  repeat first
    [ apply Forall_nil_2
    | apply Forall_cons_2; cbn [sample_utterances name fmap list_fmap]
    | right; vm_compute; reflexivity
    | left; reflexivity ].
Qed.

(** *** Slots *)

(** X16.  A weather response has exactly the slots location and date:
    location is the first match of the city pattern, lowercased, or
    null; date is the result of [extract_date]. *)
Theorem weather_slots (msg : str) (r : ChatResponse) :
  guess_intent msg = Ok r → intent r = py "weather" →
  slots r = {[ py "location" := lower <$> head (finditer CITY_PATTERN (strip msg));
               py "date" := extract_date (strip msg) ]}.
Proof.
  intros Hr Hname.
  apply (classified_as msg r Weather) in Hr as [_ Hh]; [|done].
  simpl in Hh. rewrite weather_full in Hh. injection Hh as <-.
  cbn [slots response]. unfold extract_cities.
  by destruct (finditer CITY_PATTERN (strip msg)).
Qed.

Lemma head_nonempty (l : list str) (v : str) :
  Forall (λ c, c ≠ []) l → head l = Some v → v ≠ [].
Proof. destruct 1 as [|c l' Hc _]; [done | by intros [= <-]]. Qed.

Lemma stay_dates_nonempty (text v : str) :
  (stay_dates text).1 = Some v ∨ (stay_dates text).2 = Some v → v ≠ [].
Proof.
  pose proof (dates_nonempty text) as Hd.
  pose proof (extract_date_nonempty text) as He.
  unfold stay_dates.
  destruct (finditer DATE_PATTERN text) as [|d0 [|d1 ds]]; simpl.
  - intros [Hv|[=]]. by rewrite Hv in He.
  - intros [Hv|[=]]. by rewrite Hv in He.
  - apply Forall_cons in Hd as [? [? _]%Forall_cons]. by intros [[= <-]|[= <-]].
Qed.

Lemma route_nonempty (cities : list str) (low v : str) :
  Forall (λ c, c ≠ []) cities →
  (route cities low).1 = Some v ∨ (route cities low).2 = Some v → v ≠ [].
Proof.
  intros Hc. unfold route. destruct cities as [|c0 [|c1 cs]]; simpl.
  - by intros [[=]|[=]].
  - apply Forall_cons in Hc as [? _].
    destruct (contains (py "from") low); simpl; [by intros [[= <-]|[=]]|].
    destruct (contains (py "to") low); simpl; [by intros [[=]|[= <-]]|].
    by intros [[=]|[=]].
  - apply Forall_cons in Hc as [? [? _]%Forall_cons]. by intros [[= <-]|[= <-]].
Qed.

(** X17.  Provided lowercasing deletes no code point, no slot of a
    response ever holds the empty string: a slot is null, or absent, or
    a string of at least one code point. *)
Theorem slot_values_nonempty (msg : str) (r : ChatResponse) (k v : str) :
  lower_deletes_nothing →
  guess_intent msg = Ok r → slots r !! k = Some (Some v) → v ≠ [].
Proof.
  intros HU Hr.
  destruct (guess_intent_dispatch msg) as (ρ & _ & Hg). rewrite Hg in Hr.
  pose proof (cities_nonempty (strip msg) HU) as Hc.
  pose proof (extract_date_nonempty (strip msg)) as He.
  destruct ρ; cbn [handler] in Hr.
  - injection Hr as <-. cbn [slots greeting_response]. by rewrite lookup_empty.
  - injection Hr as <-. cbn [slots thanks_response]. by rewrite lookup_empty.
  - injection Hr as <-. cbn [slots help_response]. by rewrite lookup_empty.
  - rewrite cancel_booking_full in Hr. injection Hr as <-. cbn [slots response].
    destruct (search BOOKING_ID_PATTERN (strip msg)) as [m|] eqn:Hm;
      [|by rewrite lookup_empty].
    intros [_ [= <-]]%lookup_singleton_Some.
    apply search_lang in Hm as [[[Hlen _] _]%booking_id_lang _].
    intros ->. simpl in Hlen. lia.
  - rewrite book_hotel_full in Hr. injection Hr as <-. cbn [slots response].
    rewrite !lookup_insert_Some, lookup_singleton_Some.
    intros [[_ [= Hv]]|[_ [[_ [= Hv]]|[_ [_ [= Hv]]]]]].
    + by apply (head_nonempty _ _ Hc).
    + apply (stay_dates_nonempty (strip msg)). by left.
    + apply (stay_dates_nonempty (strip msg)). by right.
  - rewrite search_flights_full in Hr by done. injection Hr as <-.
    cbn [slots response].
    rewrite !lookup_insert_Some, lookup_singleton_Some.
    intros [[_ [= Hv]]|[_ [[_ [= Hv]]|[_ [_ [= Hv]]]]]].
    + apply (route_nonempty _ (lower (strip msg)) _ Hc). by left.
    + apply (route_nonempty _ (lower (strip msg)) _ Hc). by right.
    + by rewrite Hv in He.
  - rewrite weather_full in Hr. injection Hr as <-. cbn [slots response].
    rewrite !lookup_insert_Some, lookup_singleton_Some.
    intros [[_ [= Hv]]|[_ [_ [= Hv]]]].
    + by apply (head_nonempty _ _ Hc).
    + by rewrite Hv in He.
  - injection Hr as <-. cbn [slots fallback_response]. by rewrite lookup_empty.
Qed.

(** *** The intent, by the keywords of the message *)

Lemma keywords_occur_satisfied (low : str) (ρ : Rule) :
  keywords_occur low ρ ↔ satisfied low ρ = true.
Proof.
  destruct (keyword_rules low) as (H1 & H2 & H3 & H4 & H5 & H6).
  destruct ρ; cbn [keywords_occur]; try (symmetry; assumption).
  - symmetry. apply found_greeting.
  - done.
Qed.

Lemma rule_index (ρ : Rule) : ∃ i, priority_order !! i = Some ρ.
Proof.
  destruct ρ;
    [by exists 0%nat | by exists 1%nat | by exists 2%nat | by exists 3%nat
    | by exists 4%nat | by exists 5%nat | by exists 6%nat | by exists 7%nat].
Qed.

(** X1.  [guess_intent] always answers, and its intent is that of the
    first branch, in the order greeting, thanks, help, cancel_booking,
    book_hotel, search_flights, weather, fallback, whose keywords occur
    as whole words in the stripped, lowercased message: the intent is
    that of a rule exactly when the keywords of the rule occur and those
    of no earlier rule do.  In "hi thanks" the keywords of thanks occur,
    and the answer is the greeting; "thanks a lot" is answered thanks. *)
Theorem intent_by_keywords :
  (∀ msg : str,
     ∃ r, guess_intent msg = Ok r
          ∧ ∀ ρ, intent r = intent_name ρ ↔
                 keywords_occur (lower (strip msg)) ρ
                 ∧ ∀ i j ρ',
                     priority_order !! i = Some ρ' → priority_order !! j = Some ρ →
                     (i < j)%nat → ¬ keywords_occur (lower (strip msg)) ρ')
  ∧ (keywords_occur (lower (strip (py "hi thanks"))) Thanks
     ∧ ∃ r, guess_intent (py "hi thanks") = Ok r ∧ intent r = py "greeting")
  ∧ (∃ r, guess_intent (py "thanks a lot") = Ok r ∧ intent r = py "thanks").
Proof.
  split; [|split].
  - intros msg.
    destruct (guess_intent_shape msg) as (ρ0 & sl & rep & Hfirst & Hg & _).
    exists (response ρ0 sl rep). split; [done|]. intros ρ. cbn [intent response].
    apply first_satisfied_spec in Hfirst as [Hsat Hearlier].
    split.
    + intros ->%intent_name_inj. split; [by apply keywords_occur_satisfied|].
      intros i j ρ' Hi Hj Hlt Hocc%keywords_occur_satisfied.
      by rewrite (Hearlier i j ρ' Hi Hj Hlt) in Hocc.
    + intros [Hocc Hnone]. f_equal.
      destruct (rule_index ρ0) as [i Hi], (rule_index ρ) as [j Hj].
      destruct (lt_eq_lt_dec i j) as [[Hlt| ->]|Hlt].
      * destruct (Hnone i j ρ0 Hi Hj Hlt). by apply keywords_occur_satisfied.
      * congruence.
      * apply keywords_occur_satisfied in Hocc.
        by rewrite (Hearlier j i ρ Hj Hi Hlt) in Hocc.
  - split.
    + apply keywords_occur_satisfied. vm_compute. reflexivity.
    + eexists. split; vm_compute; reflexivity.
  - eexists. split; vm_compute; reflexivity.
Qed.

End Classifier.

(** ** Concrete utterances

    The statements above at utterances of the specification, with the
    Unicode database [ascii_only]. *)

(** The example of C1 does not satisfy the book-hotel predicate: it
    contains "hotel", but none of "book", "reserve", "find" as a word. *)
Lemma booking_is_not_the_word_book :
  found ascii_only CANCEL (py "cancel my hotel booking abc123") = true
  ∧ found ascii_only BOOKING (py "cancel my hotel booking abc123") = true
  ∧ found ascii_only LODGING (py "cancel my hotel booking abc123") = true
  ∧ found ascii_only RESERVE (py "cancel my hotel booking abc123") = false
  ∧ lower ascii_only (strip ascii_only (py "cancel my hotel booking ABC123"))
    = py "cancel my hotel booking abc123"
  ∧ satisfied ascii_only
      (lower ascii_only (strip ascii_only (py "cancel my hotel booking ABC123")))
      BookHotel = false.
Proof. repeat split; vm_compute; reflexivity. Qed.

(** In "flights to paris with fromage" the word "from" does not occur
    and the word "to" does; [extract_cities] finds one city.  The text
    contains the letters of "from" inside "fromage", and [guess_intent]
    gives the city to the slot from and leaves to null. *)
Lemma fromage_is_not_the_word_from :
  lower ascii_only (strip ascii_only (py "flights to paris with fromage"))
  = py "flights to paris with fromage"
  ∧ extract_cities ascii_only (strip ascii_only (py "flights to paris with fromage"))
    = [py "paris"]
  ∧ ¬ occurs_as_word ascii_only (py "from") (py "flights to paris with fromage")
  ∧ found ascii_only (whole_word [lit "from"]) (py "flights to paris with fromage")
    = false
  ∧ occurs_as_word ascii_only (py "to") (py "flights to paris with fromage")
  ∧ found ascii_only (whole_word [lit "to"]) (py "flights to paris with fromage")
    = true
  ∧ substring (py "from") (py "flights to paris with fromage")
  ∧ ∃ r, guess_intent ascii_only (py "flights to paris with fromage") = Ok r
         ∧ intent r = py "search_flights"
         ∧ slots r = {[ py "from" := Some (py "paris"); py "to" := None;
                        py "date" := None ]}.
Proof.
  split; [vm_compute; reflexivity|]. split; [vm_compute; reflexivity|].
  split.
  { intros H.
    assert (Hw : some_word ascii_only ["from"%string]
                   (py "flights to paris with fromage"))
      by (exists "from"%string; split; [left | exact H]).
    apply found_keywords in Hw; [|repeat constructor; vm_compute; reflexivity].
    vm_compute in Hw. discriminate. }
  split; [vm_compute; reflexivity|].
  split.
  { exists (py "flights "), (py " paris with fromage").
    repeat split; vm_compute; reflexivity. }
  split; [vm_compute; reflexivity|].
  split.
  { exists (py "flights to paris with "), (py "age"). vm_compute; reflexivity. }
  eexists. split; [vm_compute; reflexivity|].
  split; vm_compute; reflexivity.
Qed.

Lemma slotless_intents_have_no_slots_witness :
  guess_intent ascii_only (py "hi, I'm in Paris") = Ok greeting_response
  ∧ intent greeting_response ∈ slotless_intents
  ∧ slots greeting_response = ∅.
Proof.
  assert (H1 : guess_intent ascii_only (py "hi, I'm in Paris") = Ok greeting_response)
    by (vm_compute; reflexivity).
  assert (H2 : intent greeting_response ∈ slotless_intents) by (vm_compute; left).
  split; [exact H1|]. split; [exact H2|].
  exact (proj1 (slotless_intents_have_no_slots ascii_only) _ _ H1 H2).
Defined.

Lemma book_hotel_slots_witness :
  ∃ r, guess_intent ascii_only
         (py "Book a hotel in Paris from 2024-07-01 to 2024-07-05") = Ok r
       ∧ intent r = py "book_hotel"
       ∧ let text :=
           strip ascii_only (py "Book a hotel in Paris from 2024-07-01 to 2024-07-05") in
         dom (slots r) = ({[ py "location"; py "check_in"; py "check_out" ]} : gset str)
         ∧ slots r !! py "location"
           = Some (lower ascii_only <$> head (finditer ascii_only (CITY_PATTERN ascii_only) text))
         ∧ match finditer ascii_only (DATE_PATTERN ascii_only) text with
           | d0 :: d1 :: _ =>
               slots r !! py "check_in" = Some (Some d0)
               ∧ slots r !! py "check_out" = Some (Some d1)
           | _ =>
               slots r !! py "check_in" = Some (extract_date ascii_only text)
               ∧ slots r !! py "check_out" = Some None
           end.
Proof.
  destruct (guess_intent ascii_only
              (py "Book a hotel in Paris from 2024-07-01 to 2024-07-05"))
    as [r|e] eqn:H1; [|by vm_compute in H1].
  assert (H2 : intent r = py "book_hotel")
    by (vm_compute in H1; injection H1 as <-; vm_compute; reflexivity).
  exists r. split; [reflexivity|]. split; [exact H2|].
  exact (proj1 (book_hotel_slots ascii_only) _ r H1 H2).
Defined.

Lemma search_flights_slots_witness :
  ∃ r, guess_intent ascii_only (py "Any flights to Tokyo next Friday?") = Ok r
       ∧ intent r = py "search_flights"
       ∧ let text := strip ascii_only (py "Any flights to Tokyo next Friday?") in
         let low := lower ascii_only text in
         ∃ origin destination : option str,
           slots r = {[ py "from" := origin; py "to" := destination;
                        py "date" := extract_date ascii_only text ]}
           ∧ match extract_cities ascii_only text with
             | c0 :: c1 :: _ => origin = Some c0 ∧ destination = Some c1
             | [c0] =>
                 if contains (py "from") low
                 then origin = Some c0 ∧ destination = None
                 else contains (py "to") low = true
                      ∧ origin = None ∧ destination = Some c0
             | [] => origin = None ∧ destination = None
             end.
Proof.
  destruct (guess_intent ascii_only (py "Any flights to Tokyo next Friday?"))
    as [r|e] eqn:H1; [|by vm_compute in H1].
  assert (H2 : intent r = py "search_flights")
    by (vm_compute in H1; injection H1 as <-; vm_compute; reflexivity).
  exists r. split; [reflexivity|]. split; [exact H2|].
  exact (proj1 (search_flights_slots ascii_only) _ r H1 H2).
Defined.

Lemma cancel_booking_slots_witness :
  ∃ r, guess_intent ascii_only (py "I want to cancel my reservation") = Ok r
       ∧ intent r = py "cancel_booking"
       ∧ match search ascii_only BOOKING_ID_PATTERN
                 (strip ascii_only (py "I want to cancel my reservation")) with
         | None => slots r = ∅ ∧ size (slots r) = O
         | Some m =>
             slots r = {[ py "booking_id" := Some m ]}
             ∧ (5 ≤ length m ≤ 8)%nat
             ∧ Forall (λ c, ascii_isupper c || ascii_isdigit c = true) m
         end.
Proof.
  destruct (guess_intent ascii_only (py "I want to cancel my reservation"))
    as [r|e] eqn:H1; [|by vm_compute in H1].
  assert (H2 : intent r = py "cancel_booking")
    by (vm_compute in H1; injection H1 as <-; vm_compute; reflexivity).
  exists r. split; [reflexivity|]. split; [exact H2|].
  exact (proj1 (cancel_booking_slots ascii_only) _ r H1 H2).
Defined.

Lemma extract_date_follows_list_order_witness :
  search ascii_only (DATE_PATTERN ascii_only) (py "Tomorrow or today") = None
  ∧ match extract_date ascii_only (py "Tomorrow or today") with
    | Some w =>
        ∃ i, DATE_WORDS !! i = Some w
             ∧ substring w (lower ascii_only (py "Tomorrow or today"))
             ∧ ∀ j w', (j < i)%nat → DATE_WORDS !! j = Some w' →
                       ¬ substring w' (lower ascii_only (py "Tomorrow or today"))
    | None =>
        ∀ w, w ∈ DATE_WORDS →
             ¬ substring w (lower ascii_only (py "Tomorrow or today"))
    end.
Proof.
  assert (H : search ascii_only (DATE_PATTERN ascii_only) (py "Tomorrow or today") = None)
    by (vm_compute; reflexivity).
  split; [exact H|].
  exact (proj1 (extract_date_follows_list_order ascii_only) _ H).
Defined.

Lemma surrounding_whitespace_is_ignored_witness :
  Forall (λ c, isspace ascii_only c = true) (py "  ")
  ∧ Forall (λ c, isspace ascii_only c = true) [9; 10]
  ∧ ∃ r, guess_intent ascii_only (py "book a hotel in Rome") = Ok r
         ∧ guess_intent ascii_only (py "  " ++ py "book a hotel in Rome" ++ [9; 10]) = Ok r.
Proof.
  assert (H1 : Forall (λ c, isspace ascii_only c = true) (py "  "))
    by (repeat constructor).
  assert (H2 : Forall (λ c, isspace ascii_only c = true) [9; 10])
    by (repeat constructor).
  split; [exact H1|]. split; [exact H2|].
  exact (surrounding_whitespace_is_ignored ascii_only _ _ _ H1 H2).
Defined.

Lemma intent_ignores_case_witness :
  ∃ r1 r2,
    lower ascii_only (strip ascii_only (py "Cancel Booking ABC123"))
    = lower ascii_only (strip ascii_only (py "cancel booking abc123"))
    ∧ guess_intent ascii_only (py "Cancel Booking ABC123") = Ok r1
    ∧ guess_intent ascii_only (py "cancel booking abc123") = Ok r2
    ∧ (intent r1 = intent r2 ∧ confidence r1 = confidence r2
       ∧ follow_up r1 = follow_up r2)
    ∧ slots r1 !! py "booking_id" = Some (Some (py "ABC123"))
    ∧ slots r2 !! py "booking_id" = None.
Proof.
  destruct (guess_intent ascii_only (py "Cancel Booking ABC123"))
    as [r1|e] eqn:H1; [|by vm_compute in H1].
  destruct (guess_intent ascii_only (py "cancel booking abc123"))
    as [r2|e] eqn:H2; [|by vm_compute in H2].
  assert (Hlow : lower ascii_only (strip ascii_only (py "Cancel Booking ABC123"))
                 = lower ascii_only (strip ascii_only (py "cancel booking abc123")))
    by (vm_compute; reflexivity).
  exists r1, r2. split; [exact Hlow|]. split; [reflexivity|]. split; [reflexivity|].
  split; [exact (intent_ignores_case ascii_only _ _ r1 r2 Hlow H1 H2)|].
  vm_compute in H1, H2. injection H1 as <-. injection H2 as <-.
  split; vm_compute; reflexivity.
Defined.

Lemma check_in_is_the_extracted_date_witness :
  ∃ r, guess_intent ascii_only
         (py "Book a hotel in Paris from 2024-07-01 to 2024-07-05") = Ok r
       ∧ intent r = py "book_hotel"
       ∧ slots r !! py "check_in"
         = Some (extract_date ascii_only
                   (strip ascii_only
                      (py "Book a hotel in Paris from 2024-07-01 to 2024-07-05")))
       ∧ slots r !! py "check_out"
         = Some (finditer ascii_only (DATE_PATTERN ascii_only)
                   (strip ascii_only
                      (py "Book a hotel in Paris from 2024-07-01 to 2024-07-05"))
                 !! 1%nat)
       ∧ (slots r !! py "check_out" ≠ Some None →
          slots r !! py "check_in" ≠ Some None).
Proof.
  destruct (guess_intent ascii_only
              (py "Book a hotel in Paris from 2024-07-01 to 2024-07-05"))
    as [r|e] eqn:H1; [|by vm_compute in H1].
  assert (H2 : intent r = py "book_hotel")
    by (vm_compute in H1; injection H1 as <-; vm_compute; reflexivity).
  exists r. split; [reflexivity|]. split; [exact H2|].
  exact (check_in_is_the_extracted_date ascii_only _ r H1 H2).
Defined.

Lemma cancel_booking_reply_witness :
  ∃ r, guess_intent ascii_only (py "Cancel booking ABC123") = Ok r
       ∧ intent r = py "cancel_booking"
       ∧ match slots r !! py "booking_id" with
         | Some (Some bid) =>
             reply r = py "Okay, I can cancel booking " ++ bid
                         ++ py ". Do you want me to proceed?"
         | Some None => False
         | None => reply r = py "I can help cancel that. What's the booking ID?"
         end.
Proof.
  destruct (guess_intent ascii_only (py "Cancel booking ABC123"))
    as [r|e] eqn:H1; [|by vm_compute in H1].
  assert (H2 : intent r = py "cancel_booking")
    by (vm_compute in H1; injection H1 as <-; vm_compute; reflexivity).
  exists r. split; [reflexivity|]. split; [exact H2|].
  exact (cancel_booking_reply ascii_only _ r H1 H2).
Defined.

Lemma book_hotel_reply_witness :
  ∃ r, guess_intent ascii_only (py "Find me a 4-star hotel in Rome for two nights") = Ok r
       ∧ intent r = py "book_hotel"
       ∧ ∃ loc check_in check_out : option str,
           slots r = {[ py "location" := loc; py "check_in" := check_in;
                        py "check_out" := check_out ]}
           ∧ reply r =
               match loc, check_in, check_out with
               | Some c, Some d1, Some d2 =>
                   py "Got it. Searching hotels in " ++ title ascii_only c
                     ++ py " from " ++ d1 ++ py " to " ++ d2 ++ py "..."
               | Some c, Some d1, None =>
                   py "Great. What's your check-out date for " ++ title ascii_only c
                     ++ py " after " ++ d1 ++ py "?"
               | Some c, None, _ =>
                   py "Great. What dates would you like in " ++ title ascii_only c
                     ++ py "?"
               | None, _, _ => py "Sure, what city and dates are you looking at?"
               end.
Proof.
  destruct (guess_intent ascii_only (py "Find me a 4-star hotel in Rome for two nights"))
    as [r|e] eqn:H1; [|by vm_compute in H1].
  assert (H2 : intent r = py "book_hotel")
    by (vm_compute in H1; injection H1 as <-; vm_compute; reflexivity).
  exists r. split; [reflexivity|]. split; [exact H2|].
  exact (book_hotel_reply ascii_only _ r H1 H2).
Defined.

Lemma weather_reply_by_slots_witness :
  ∃ r, guess_intent ascii_only (py "What's the weather in Paris tomorrow?") = Ok r
       ∧ intent r = py "weather"
       ∧ ∃ loc date : option str,
           slots r = {[ py "location" := loc; py "date" := date ]}
           ∧ reply r =
               match loc, date with
               | Some c, Some d =>
                   py "Forecast for " ++ title ascii_only c ++ py " on " ++ d
                     ++ py ": 23" ++ [176] ++ py "C, partly cloudy (sample)."
               | _, _ => py "I can get the forecast. Which city and date?"
               end.
Proof.
  destruct (guess_intent ascii_only (py "What's the weather in Paris tomorrow?"))
    as [r|e] eqn:H1; [|by vm_compute in H1].
  assert (H2 : intent r = py "weather")
    by (vm_compute in H1; injection H1 as <-; vm_compute; reflexivity).
  exists r. split; [reflexivity|]. split; [exact H2|].
  exact (weather_reply_by_slots ascii_only _ r H1 H2).
Defined.

Lemma search_flights_reply_witness :
  lower_deletes_nothing ascii_only
  ∧ ∃ r, guess_intent ascii_only (py "Find flights from NYC to Paris on June 5") = Ok r
         ∧ intent r = py "search_flights"
         ∧ ∃ origin destination date : option str,
             slots r = {[ py "from" := origin; py "to" := destination;
                          py "date" := date ]}
             ∧ reply r =
                 match flight_part "from " (title ascii_only) origin
                       ++ flight_part "to " (title ascii_only) destination
                       ++ flight_part "on " id date with
                 | [] => py "Sure " ++ [8212]
                           ++ py " what's your origin, destination, and date?"
                 | parts => join (py " ") (py "Got it." :: parts) ++ py "..."
                 end.
Proof.
  assert (HU : lower_deletes_nothing ascii_only) by (intros before c after; discriminate).
  split; [exact HU|].
  destruct (guess_intent ascii_only (py "Find flights from NYC to Paris on June 5"))
    as [r|e] eqn:H1; [|by vm_compute in H1].
  assert (H2 : intent r = py "search_flights")
    by (vm_compute in H1; injection H1 as <-; vm_compute; reflexivity).
  exists r. split; [reflexivity|]. split; [exact H2|].
  exact (search_flights_reply ascii_only _ r HU H1 H2).
Defined.

Lemma extract_cities_known_names_witness :
  Forall (λ c, is_ascii c = true) (py "From NYC to New York, then PARIS")
  ∧ Forall (λ c, c ∈ py <$> CITY_NAMES)
           (extract_cities ascii_only (py "From NYC to New York, then PARIS")).
Proof.
  assert (H : Forall (λ c, is_ascii c = true) (py "From NYC to New York, then PARIS"))
    by (repeat constructor).
  split; [exact H|].
  exact (extract_cities_known_names ascii_only _ H).
Defined.

Lemma check_out_follows_check_in_witness :
  ∃ r, guess_intent ascii_only
         (py "Book a hotel in Paris from 2024-07-01 to 2024-07-05") = Ok r
       ∧ intent r = py "book_hotel"
       ∧ slots r !! py "check_in" = Some (Some (py "2024-07-01"))
       ∧ slots r !! py "check_out" = Some (Some (py "2024-07-05"))
       ∧ ∃ a b c,
           strip ascii_only (py "Book a hotel in Paris from 2024-07-01 to 2024-07-05")
           = a ++ py "2024-07-01" ++ b ++ py "2024-07-05" ++ c.
Proof.
  destruct (guess_intent ascii_only
              (py "Book a hotel in Paris from 2024-07-01 to 2024-07-05"))
    as [r|e] eqn:H1; [|by vm_compute in H1].
  assert (H2 : intent r = py "book_hotel")
    by (vm_compute in H1; injection H1 as <-; vm_compute; reflexivity).
  assert (H3 : slots r !! py "check_in" = Some (Some (py "2024-07-01")))
    by (vm_compute in H1; injection H1 as <-; vm_compute; reflexivity).
  assert (H4 : slots r !! py "check_out" = Some (Some (py "2024-07-05")))
    by (vm_compute in H1; injection H1 as <-; vm_compute; reflexivity).
  exists r. split; [reflexivity|]. split; [exact H2|].
  split; [exact H3|]. split; [exact H4|].
  exact (check_out_follows_check_in ascii_only _ r _ _ H1 H2 H3 H4).
Defined.

Lemma booking_id_is_the_first_token_witness :
  ∃ r, guess_intent ascii_only (py "cancel booking ABCDEFGHIJK or 9XZ45, AB123") = Ok r
       ∧ intent r = py "cancel_booking"
       ∧ match slots r !! py "booking_id" with
         | Some (Some bid) =>
             booking_token bid
             ∧ ∃ pre post,
                 strip ascii_only (py "cancel booking ABCDEFGHIJK or 9XZ45, AB123")
                 = pre ++ bid ++ post
                 ∧ no_word ascii_only (last pre) ∧ no_word ascii_only (head post)
                 ∧ ∀ pre' m' post',
                     strip ascii_only (py "cancel booking ABCDEFGHIJK or 9XZ45, AB123")
                     = pre' ++ m' ++ post' →
                     booking_token m' →
                     no_word ascii_only (last pre') → no_word ascii_only (head post') →
                     (length pre ≤ length pre')%nat
         | Some None => False
         | None =>
             ∀ m, booking_token m →
                  ¬ occurs_as_word ascii_only m
                      (strip ascii_only (py "cancel booking ABCDEFGHIJK or 9XZ45, AB123"))
         end.
Proof.
  destruct (guess_intent ascii_only (py "cancel booking ABCDEFGHIJK or 9XZ45, AB123"))
    as [r|e] eqn:H1; [|by vm_compute in H1].
  assert (H2 : intent r = py "cancel_booking")
    by (vm_compute in H1; injection H1 as <-; vm_compute; reflexivity).
  exists r. split; [reflexivity|]. split; [exact H2|].
  exact (booking_id_is_the_first_token ascii_only _ r H1 H2).
Defined.

Lemma weather_slots_witness :
  ∃ r, guess_intent ascii_only (py "Forecast for Tokyo on June 10") = Ok r
       ∧ intent r = py "weather"
       ∧ slots r =
           {[ py "location" :=
                lower ascii_only
                  <$> head (finditer ascii_only (CITY_PATTERN ascii_only)
                              (strip ascii_only (py "Forecast for Tokyo on June 10")));
              py "date" :=
                extract_date ascii_only
                  (strip ascii_only (py "Forecast for Tokyo on June 10")) ]}.
Proof.
  destruct (guess_intent ascii_only (py "Forecast for Tokyo on June 10"))
    as [r|e] eqn:H1; [|by vm_compute in H1].
  assert (H2 : intent r = py "weather")
    by (vm_compute in H1; injection H1 as <-; vm_compute; reflexivity).
  exists r. split; [reflexivity|]. split; [exact H2|].
  exact (weather_slots ascii_only _ r H1 H2).
Defined.

Lemma slot_values_nonempty_witness :
  lower_deletes_nothing ascii_only
  ∧ ∃ r, guess_intent ascii_only (py "I need a flight from London to Rome") = Ok r
         ∧ slots r !! py "to" = Some (Some (py "rome"))
         ∧ py "rome" ≠ [].
Proof.
  assert (HU : lower_deletes_nothing ascii_only) by (intros before c after; discriminate).
  split; [exact HU|].
  destruct (guess_intent ascii_only (py "I need a flight from London to Rome"))
    as [r|e] eqn:H1; [|by vm_compute in H1].
  assert (H2 : slots r !! py "to" = Some (Some (py "rome")))
    by (vm_compute in H1; injection H1 as <-; vm_compute; reflexivity).
  exists r. split; [reflexivity|]. split; [exact H2|].
  exact (slot_values_nonempty ascii_only _ r _ _ HU H1 H2).
Defined.

Lemma extract_cities_in_text_order_witness :
  Forall (λ c, is_ascii c = true) (py "From Paris to NYC")
  ∧ ∃ ms : list str,
      extract_cities ascii_only (py "From Paris to NYC") = lower ascii_only <$> ms
      ∧ scan (city_occurrence ascii_only) None (py "From Paris to NYC") ms
      ∧ ∀ ms', scan (city_occurrence ascii_only) None (py "From Paris to NYC") ms' →
               ms' = ms.
Proof.
  assert (H : Forall (λ c, is_ascii c = true) (py "From Paris to NYC"))
    by (repeat constructor).
  split; [exact H|].
  destruct (proj1 (extract_cities_in_text_order ascii_only) (py "From Paris to NYC"))
    as (ms & H1 & H2 & _ & _ & H5).
  exists ms. split; [exact H1|]. split; [exact H2|]. exact (H5 H).
Defined.
